(** * Optimal discount dashboard: the preparation and aggregation pipeline

    A shallow embedding of [Streamlit/optimaldiscount_dashboard.py]:
    [load_and_prepare_data], [perform_discount_analysis] and the part of
    [main] that derives the recommended discount range, together with the
    pandas operations they call ([to_numeric], [dropna], [cut], [groupby],
    [sum], [mean], [idxmax]), with the behaviour of pandas 2: [astype(str)]
    renders a missing category as the text "nan", and [groupby] sorts its
    keys.

    Numbers.  The file has two levels.  In the first a float64 entry is
    modelled by an exact rational, [None] standing for NaN; rounding and
    overflow are not modelled, and input numbers are finite.  The only place
    where the program can produce an infinity is the division of line 34,
    whose result type [xfloat] has them.  This level carries what does not
    depend on rounding: which rows are kept, their labels, the groups, their
    order, the exceptions.

    The second level (section "Machine arithmetic") redoes lines 13 and
    27-34 with the numbers numpy computes with: int64 with wrap-around, and
    float64, a number of the CSV being rounded to the nearest float64 and
    every operation rounding its exact result to nearest, ties to even
    ([round64]).  Sums and means of groups are those of pandas' grouped
    reductions (compensated summation).  The sign of a zero is not
    modelled. *)

From Stdlib Require Import ZArith QArith Qminmax Qround Qpower Lqa.
From Stdlib Require Import List String Ascii Bool Arith Lia.
From Stdlib Require Import Permutation Sorted Setoid Morphisms.
Import ListNotations.

Open Scope Q_scope.

(** ** Cells, exceptions *)

(** What [read_csv] leaves in a cell: a number, a text (a column that holds
    one text that spells no number is held as text throughout), or NaN for an
    empty field. *)
Inductive cell : Type :=
| Num (q : Q)
| Str (s : string)
| NaN.

(** An entry of a float64 column; [None] is NaN. *)
Definition float : Type := option Q.

Inductive exn : Type := TypeError | ValueError | IndexError.

Inductive result (A : Type) : Type :=
| Ok (a : A)
| Raise (e : exn).
Arguments Ok {A} a.
Arguments Raise {A} e.

Definition bind {A B : Type} (m : result A) (k : A -> result B) : result B :=
  match m with
  | Ok a => k a
  | Raise e => Raise e
  end.

Notation "x <- m ;; k" := (bind m (fun x => k))
  (at level 61, m at next level, right associativity).

Fixpoint mapM {A B : Type} (f : A -> result B) (l : list A) : result (list B) :=
  match l with
  | [] => Ok []
  | a :: l' => b <- f a ;; bs <- mapM f l' ;; Ok (b :: bs)
  end.

(** ** Tables *)

(** A row of the uploaded table, restricted to the four columns selected in
    line 11. *)
Record raw_row : Type := {
  raw_discount : cell;
  raw_profit : cell;
  raw_sales : cell;
  raw_profit_margin : cell
}.

(** A row after lines 12-13: [discount] and [profit_margin] are float64,
    [profit] and [sales] are as they were read. *)
Record coerced_row : Type := {
  c_discount : float;
  c_profit : cell;
  c_sales : cell;
  c_profit_margin : float
}.

(** A row of the prepared table, with the [discount_range] column. *)
Record row : Type := {
  discount : float;
  profit : cell;
  sales : cell;
  profit_margin : float;
  discount_range : string
}.

(** ** [load_and_prepare_data] *)

Section Prepare.

(** How [pd.to_numeric] reads a text cell: the number it spells, or [None]
    when it spells none ([errors='coerce']). *)
Variable parse_number : string -> option Q.

Definition to_numeric (c : cell) : float :=
  match c with
  | Num q => Some q
  | Str s => parse_number s
  | NaN => None
  end.

Definition times_100 (x : float) : float :=
  match x with
  | Some q => Some (q * 100)
  | None => None
  end.

Definition coerce (r : raw_row) : coerced_row :=
  {| c_discount := to_numeric (raw_discount r);
     c_profit := raw_profit r;
     c_sales := raw_sales r;
     c_profit_margin := times_100 (to_numeric (raw_profit_margin r)) |}.

Definition isna (c : cell) : bool :=
  match c with
  | NaN => true
  | _ => false
  end.

Definition isna_float (x : float) : bool :=
  match x with
  | None => true
  | Some _ => false
  end.

(** [dropna(subset=['discount', 'profit', 'sales'])] keeps the rows where
    none of the three is NaN. *)
Definition notna_subset (r : coerced_row) : bool :=
  negb (isna_float (c_discount r)) && negb (isna (c_profit r))
  && negb (isna (c_sales r)).

Definition dropna (data : list coerced_row) : list coerced_row :=
  filter notna_subset data.

Definition bins : list Q := [0; 0.1; 0.2; 0.3; 0.4; 1.0].

Definition labels : list string :=
  ["0-10%"; "10-20%"; "20-30%"; "30-40%"; "40%+"]%string.

(** [bins.searchsorted(x, side='left')]: the first position whose edge is
    not below [x]. *)
Fixpoint searchsorted (edges : list Q) (x : Q) : nat :=
  match edges with
  | [] => O
  | b :: edges' => if Qle_bool x b then O else S (searchsorted edges' x)
  end.

(** [pd.cut(x, bins, labels)] with the default [right=True],
    [include_lowest=False]: position 0 (at or below the first edge) and
    position [len(bins)] (above the last edge) are NA. *)
Definition cut (x : float) (edges : list Q) (names : list string)
  : option string :=
  match x with
  | None => None
  | Some v =>
      let ids := searchsorted edges v in
      if ((ids =? 0) || (ids =? List.length edges))%nat then None
      else nth_error names (ids - 1)
  end.

(** [.astype(str)] on the categorical: an NA category becomes the text
    ["nan"]. *)
Definition astype_str (c : option string) : string :=
  match c with
  | Some l => l
  | None => "nan"%string
  end.

Definition add_discount_range (r : coerced_row) : row :=
  {| discount := c_discount r;
     profit := c_profit r;
     sales := c_sales r;
     profit_margin := c_profit_margin r;
     discount_range := astype_str (cut (c_discount r) bins labels) |}.

Definition load_and_prepare_data (file : list raw_row) : list row :=
  let data := map coerce file in
  let data := dropna data in
  map add_discount_range data.

End Prepare.

(** ** [perform_discount_analysis] *)

(** The result of the float division of line 34. *)
Inductive xfloat : Type :=
| Finite (q : Q)
| PosInf
| NegInf
| NotANumber.

(** A row of the aggregate; the index label is kept beside it. *)
Record agg_row : Type := {
  agg_sales : Q;
  agg_profit : Q;
  agg_profit_margin : float;
  profit_to_sales_ratio : xfloat
}.

(** The distinct keys in order of first appearance. *)
Fixpoint unique (ks : list string) : list string :=
  match ks with
  | [] => []
  | k :: ks' => k :: remove string_dec k (unique ks')
  end.

Fixpoint insert_sorted (k : string) (ks : list string) : list string :=
  match ks with
  | [] => [k]
  | k' :: ks' =>
      if String.leb k k' then k :: ks else k' :: insert_sorted k ks'
  end.

(** Keys are sorted as Python compares [str]: by code point, left to right. *)
Fixpoint sort_keys (ks : list string) : list string :=
  match ks with
  | [] => []
  | k :: ks' => insert_sorted k (sort_keys ks')
  end.

Definition group_keys (data : list row) : list string :=
  sort_keys (unique (map discount_range data)).

Definition group_of (data : list row) (k : string) : list row :=
  filter (fun r => String.eqb (discount_range r) k) data.

(** [data.groupby('discount_range')]: one group per distinct key, keys
    sorted, each group holding its rows in table order. *)
Definition groupby (data : list row) : list (string * list row) :=
  map (fun k => (k, group_of data k)) (group_keys data).

(** ['sum'] over a group of a column that was not coerced.  NaN is skipped.
    A text cell makes the column an object column: its "sum" is not a number
    and the division of line 34 raises [TypeError]; the model raises it
    here. *)
Fixpoint sum_column (c : list cell) : result Q :=
  match c with
  | [] => Ok 0
  | Num q :: c' => s <- sum_column c' ;; Ok (q + s)
  | NaN :: c' => sum_column c'
  | Str _ :: _ => Raise TypeError
  end.

Fixpoint Qsum (l : list Q) : Q :=
  match l with
  | [] => 0
  | q :: l' => q + Qsum l'
  end.

Fixpoint notna_values (c : list float) : list Q :=
  match c with
  | [] => []
  | Some q :: c' => q :: notna_values c'
  | None :: c' => notna_values c'
  end.

(** ['mean'] over a group: NaN is skipped; a group without any value has
    mean NaN. *)
Definition mean (c : list float) : float :=
  match notna_values c with
  | [] => None
  | v => Some (Qsum v / inject_Z (Z.of_nat (List.length v)))
  end.

(** [profit / sales] on the aggregate: float division, where a zero divisor
    gives an infinity or NaN and raises nothing. *)
Definition true_divide (p s : Q) : xfloat :=
  if Qeq_bool s 0 then
    if Qeq_bool p 0 then NotANumber
    else if Qle_bool 0 p then PosInf else NegInf
  else Finite (p / s).

Definition xtimes_100 (x : xfloat) : xfloat :=
  match x with
  | Finite q => Finite (q * 100)
  | other => other
  end.

Definition agg_group (g : string * list row) : result (string * agg_row) :=
  s <- sum_column (map sales (snd g)) ;;
  p <- sum_column (map profit (snd g)) ;;
  Ok (fst g,
      {| agg_sales := s;
         agg_profit := p;
         agg_profit_margin := mean (map profit_margin (snd g));
         profit_to_sales_ratio := xtimes_100 (true_divide p s) |}).

Definition perform_discount_analysis (data : list row)
  : result (list (string * agg_row)) :=
  mapM agg_group (groupby data).

(** ** [main] *)

(** The label of the first largest value after [best], NaN skipped. *)
Fixpoint argmax_from (best : string * Q) (s : list (string * float)) : string :=
  match s with
  | [] => fst best
  | (_, None) :: s' => argmax_from best s'
  | (l, Some v) :: s' =>
      if Qle_bool v (snd best) then argmax_from best s'
      else argmax_from (l, v) s'
  end.

Fixpoint first_notna (s : list (string * float)) : option string :=
  match s with
  | [] => None
  | (_, None) :: s' => first_notna s'
  | (l, Some v) :: s' => Some (argmax_from (l, v) s')
  end.

(** [Series.idxmax()]: [ValueError] on an empty series; otherwise the label
    of the first occurrence of the maximum among the values that are not NaN.
    When every value is NaN no label is returned ([Ok None]: pandas before
    3.0 returns NaN there, later versions raise). *)
Definition idxmax (s : list (string * float)) : result (option string) :=
  match s with
  | [] => Raise ValueError
  | _ => Ok (first_notna s)
  end.

Definition column_profit_margin (discount_analysis : list (string * agg_row))
  : list (string * float) :=
  map (fun la => (fst la, agg_profit_margin (snd la))) discount_analysis.

Inductive view : Type := Overview | Discount_Analysis | Recommendations.

(** What [main] puts on the page.  The bar plot of line 72 raises IndexError
    on an aggregate without rows. *)
Inductive page : Type :=
| Upload_warning
| Overview_page (data : list row)
| Discount_Analysis_page (discount_analysis : list (string * agg_row))
| Recommendations_page (optimal_range : option string).

Definition main (parse_number : string -> option Q)
  (uploaded_file : option (list raw_row)) (selected_option : view)
  : result page :=
  match uploaded_file with
  | Some file =>
      let data := load_and_prepare_data parse_number file in
      discount_analysis <- perform_discount_analysis data ;;
      match selected_option with
      | Overview => Ok (Overview_page data)
      | Discount_Analysis =>
          match discount_analysis with
          | [] => Raise IndexError
          | _ => Ok (Discount_Analysis_page discount_analysis)
          end
      | Recommendations =>
          optimal_range <- idxmax (column_profit_margin discount_analysis) ;;
          Ok (Recommendations_page optimal_range)
      end
  | None => Ok Upload_warning
  end.

(** ** Machine arithmetic *)

Definition two_pow (e : Z) : Q := 2 ^ e.

(** The nearest integer, a tie going to the even one. *)
Definition round_half_even (q : Q) : Z :=
  let f := Qfloor q in
  match Qcompare (q - inject_Z f) (1 # 2) with
  | Lt => f
  | Gt => (f + 1)%Z
  | Eq => if Z.even f then f else (f + 1)%Z
  end.

(** The integer part of the binary logarithm of a positive number. *)
Definition ilog2 (q : Q) : Z :=
  let k := (Z.log2 (Qnum q) - Z.log2 (Zpos (Qden q)))%Z in
  if Qle_bool (two_pow k) q then k else (k - 1)%Z.

(** binary64: 53 bits of mantissa, the exponent of the last bit from -1074
    (subnormal numbers) upwards, overflow from [2^1024] on. *)
Definition expo (q : Q) : Z := Z.max (ilog2 q - 52) (-1074).

Definition mant (q : Q) : Z := round_half_even (q / two_pow (expo q)).

Definition rvalue (q : Q) : Q := inject_Z (mant q) * two_pow (expo q).

Definition round_pos (q : Q) : xfloat :=
  if Qle_bool (two_pow 1024) (rvalue q) then PosInf
  else Finite (Qred (rvalue q)).

Definition f64_neg (x : xfloat) : xfloat :=
  match x with
  | Finite q => Finite (- q)
  | PosInf => NegInf
  | NegInf => PosInf
  | NotANumber => NotANumber
  end.

(** The float64 nearest to a rational: what reading a number of the CSV
    gives, and what every float64 operation does to its exact result. *)
Definition round64 (q : Q) : xfloat :=
  match Qcompare q 0 with
  | Eq => Finite 0
  | Gt => round_pos (Qred q)
  | Lt => f64_neg (round_pos (Qred (- q)))
  end.

Definition isnan (x : xfloat) : bool :=
  match x with
  | NotANumber => true
  | _ => false
  end.

Definition f64_add (x y : xfloat) : xfloat :=
  match x, y with
  | NotANumber, _ | _, NotANumber => NotANumber
  | PosInf, NegInf | NegInf, PosInf => NotANumber
  | PosInf, _ | _, PosInf => PosInf
  | NegInf, _ | _, NegInf => NegInf
  | Finite a, Finite b => round64 (a + b)
  end.

Definition f64_sub (x y : xfloat) : xfloat := f64_add x (f64_neg y).

Definition f64_mul (x y : xfloat) : xfloat :=
  match x, y with
  | NotANumber, _ | _, NotANumber => NotANumber
  | Finite a, Finite b => round64 (a * b)
  | Finite a, PosInf | PosInf, Finite a =>
      match Qcompare a 0 with
      | Eq => NotANumber
      | Gt => PosInf
      | Lt => NegInf
      end
  | Finite a, NegInf | NegInf, Finite a =>
      match Qcompare a 0 with
      | Eq => NotANumber
      | Gt => NegInf
      | Lt => PosInf
      end
  | PosInf, PosInf | NegInf, NegInf => PosInf
  | PosInf, NegInf | NegInf, PosInf => NegInf
  end.

Definition f64_div (x y : xfloat) : xfloat :=
  match x, y with
  | NotANumber, _ | _, NotANumber => NotANumber
  | Finite a, Finite b =>
      match Qcompare b 0 with
      | Eq =>
          match Qcompare a 0 with
          | Eq => NotANumber
          | Gt => PosInf
          | Lt => NegInf
          end
      | _ => round64 (a / b)
      end
  | Finite _, _ => Finite 0
  | PosInf, Finite b => if Qle_bool 0 b then PosInf else NegInf
  | NegInf, Finite b => if Qle_bool 0 b then NegInf else PosInf
  | _, _ => NotANumber
  end.

(** The loop of pandas' grouped sum and mean over the values of one group:
    NaN is skipped, the running sum carries a compensation term, and a
    compensation that is NaN (after an infinity) is reset to 0. *)
Fixpoint kahan (sumx compensation : xfloat) (values : list xfloat) : xfloat :=
  match values with
  | [] => sumx
  | val :: values' =>
      if isnan val then kahan sumx compensation values'
      else
        let y := f64_sub val compensation in
        let t := f64_add sumx y in
        let c := f64_sub (f64_sub t sumx) y in
        kahan t (if isnan c then Finite 0 else c) values'
  end.

Definition group_sum_float64 (values : list xfloat) : xfloat :=
  kahan (Finite 0) (Finite 0) values.

Definition nobs (values : list xfloat) : Z :=
  Z.of_nat (List.length (filter (fun v => negb (isnan v)) values)).

Definition group_mean_float64 (values : list xfloat) : xfloat :=
  if (nobs values =? 0)%Z then NotANumber
  else f64_div (group_sum_float64 values) (round64 (inject_Z (nobs values))).

(** int64 addition wraps around. *)
Definition wrap64 (z : Z) : Z := ((z + 2 ^ 63) mod 2 ^ 64 - 2 ^ 63)%Z.

Definition group_sum_int64 (values : list Z) : Z :=
  fold_left (fun acc v => wrap64 (acc + v)) values 0%Z.

(** The type [read_csv] gave to a numeric column, and a number of that
    type. *)
Inductive dtype : Type := int64 | float64.

Inductive number : Type :=
| I64 (z : Z)
| F64 (x : xfloat).

Fixpoint int64_values (c : list cell) : result (list Z) :=
  match c with
  | [] => Ok []
  | Num q :: c' => vs <- int64_values c' ;; Ok (Qfloor q :: vs)
  | NaN :: c' => int64_values c'
  | Str _ :: _ => Raise TypeError
  end.

Fixpoint float64_values (c : list cell) : result (list xfloat) :=
  match c with
  | [] => Ok []
  | Num q :: c' => vs <- float64_values c' ;; Ok (round64 q :: vs)
  | NaN :: c' => vs <- float64_values c' ;; Ok (NotANumber :: vs)
  | Str _ :: _ => Raise TypeError
  end.

(** ['sum'] over a group of a column of type [d]. *)
Definition group_sum (d : dtype) (c : list cell) : result number :=
  match d with
  | int64 => vs <- int64_values c ;; Ok (I64 (group_sum_int64 vs))
  | float64 => vs <- float64_values c ;; Ok (F64 (group_sum_float64 vs))
  end.

(** Division converts an int64 to float64. *)
Definition to_float64 (n : number) : xfloat :=
  match n with
  | I64 z => round64 (inject_Z z)
  | F64 x => x
  end.

(** Line 13 in float64: the margin read from the CSV, times 100.  The
    margin column is taken to be float64, as it is when one margin has a
    decimal point or is missing; a column of integers only is int64, with
    the same products as long as they are below [2^53]. *)
Definition float64_margin (parse_number : string -> option Q)
  (raw : raw_row) : xfloat :=
  match to_numeric parse_number (raw_profit_margin raw) with
  | Some q => f64_mul (round64 q) (Finite 100)
  | None => NotANumber
  end.

(** A prepared row with the float64 its profit_margin column holds. *)
Definition prepare_row_np (parse_number : string -> option Q)
  (raw : raw_row) : list (row * xfloat) :=
  if notna_subset (coerce parse_number raw)
  then [(add_discount_range (coerce parse_number raw),
         float64_margin parse_number raw)]
  else [].

Definition load_and_prepare_data_np (parse_number : string -> option Q)
  (file : list raw_row) : list (row * xfloat) :=
  flat_map (prepare_row_np parse_number) file.

Record np_agg_row : Type := {
  np_sales : number;
  np_profit : number;
  np_profit_margin : xfloat;
  np_profit_to_sales_ratio : xfloat
}.

Definition group_of_np (data : list (row * xfloat)) (k : string)
  : list (row * xfloat) :=
  filter (fun rx => String.eqb (discount_range (fst rx)) k) data.

Definition agg_group_np (sales_dtype profit_dtype : dtype)
  (g : string * list (row * xfloat)) : result (string * np_agg_row) :=
  s <- group_sum sales_dtype (map (fun rx => sales (fst rx)) (snd g)) ;;
  p <- group_sum profit_dtype (map (fun rx => profit (fst rx)) (snd g)) ;;
  Ok (fst g,
      {| np_sales := s;
         np_profit := p;
         np_profit_margin := group_mean_float64 (map snd (snd g));
         np_profit_to_sales_ratio :=
           f64_mul (f64_div (to_float64 p) (to_float64 s)) (Finite 100) |}).

(** Lines 27-34 on the machine numbers, the sales and profit columns
    having the given types. *)
Definition perform_discount_analysis_np (sales_dtype profit_dtype : dtype)
  (data : list (row * xfloat)) : result (list (string * np_agg_row)) :=
  mapM (agg_group_np sales_dtype profit_dtype)
    (map (fun k => (k, group_of_np data k)) (group_keys (map fst data))).

(** ** Vocabulary of the statements *)

(** The interval table of the data model: which label goes with a discount
    [d], and the placeholder outside all five intervals. *)
Definition labelled_by_interval (d : Q) (l : string) : Prop :=
  (0 < d /\ d <= 0.1 -> l = "0-10%"%string) /\
  (0.1 < d /\ d <= 0.2 -> l = "10-20%"%string) /\
  (0.2 < d /\ d <= 0.3 -> l = "20-30%"%string) /\
  (0.3 < d /\ d <= 0.4 -> l = "30-40%"%string) /\
  (0.4 < d /\ d <= 1 -> l = "40%+"%string) /\
  (d <= 0 \/ 1 < d -> l = "nan"%string).

(** The prepared row a raw row becomes when it survives, its discount
    being [d]. *)
Definition prepared (parse_number : string -> option Q) (raw : raw_row)
  (d : Q) : row :=
  {| discount := Some d;
     profit := raw_profit raw;
     sales := raw_sales raw;
     profit_margin := times_100 (to_numeric parse_number (raw_profit_margin raw));
     discount_range := astype_str (cut (Some d) bins labels) |}.

(** An aggregate row with the given four numbers. *)
Definition agg_row_is (a : agg_row) (total_sales total_profit margin ratio : Q)
  : Prop :=
  agg_sales a == total_sales /\
  agg_profit a == total_profit /\
  (exists m, agg_profit_margin a = Some m /\ m == margin) /\
  (exists x, profit_to_sales_ratio a = Finite x /\ x == ratio).

Definition two_rows : list raw_row :=
  [ {| raw_discount := Num 0.05; raw_profit := Num 100;
       raw_sales := Num 1000; raw_profit_margin := Num 0.1 |};
    {| raw_discount := Num 0.15; raw_profit := Num 50;
       raw_sales := Num 500; raw_profit_margin := Num 0.05 |} ].

(** A parser that reads no text as a number, for closed examples. *)
Definition reads_nothing : string -> option Q := fun _ => None.

(** The number in a cell of a summed column; text and NaN count for
    nothing. *)
Definition number_of (c : cell) : Q :=
  match c with
  | Num q => q
  | _ => 0
  end.

Definition is_text (c : cell) : bool :=
  match c with
  | Str _ => true
  | _ => false
  end.

(** The prepared table has no text in [profit] and [sales]. *)
Definition numeric_columns (data : list row) : Prop :=
  Forall (fun r => is_text (sales r) = false /\ is_text (profit r) = false) data.

Definition non_finite (x : xfloat) : Prop :=
  match x with
  | Finite _ => False
  | _ => True
  end.



(** The values of [profit_margin] in the group of key [k] that are not
    NaN. *)
Definition margins_of (data : list row) (k : string) : list Q :=
  notna_values (map profit_margin (group_of data k)).


(** Position of a label in the interval order of the data model, the
    placeholder coming last. *)
Definition interval_rank (l : string) : nat :=
  if String.eqb l "0-10%" then 0
  else if String.eqb l "10-20%" then 1
  else if String.eqb l "20-30%" then 2
  else if String.eqb l "30-40%" then 3
  else if String.eqb l "40%+" then 4
  else 5.

(** Example tables. *)
Definition mk_raw (d p s m : cell) : raw_row :=
  {| raw_discount := d; raw_profit := p; raw_sales := s;
     raw_profit_margin := m |}.

Definition text_profit_row : raw_row :=
  mk_raw (Num 0.05) (Str "abc") (Num 1000) (Num 0.1).

Definition text_margin_row : raw_row :=
  mk_raw (Num 0.05) (Num 100) (Num 1000) (Str "abc").

Definition text_discount_row : raw_row :=
  mk_raw (Str "abc") (Num 100) (Num 1000) (Num 0.1).

Definition zero_discount_row : raw_row :=
  mk_raw (Num 0) (Num 50) (Num 10) NaN.

Definition sample_table : list raw_row :=
  [ mk_raw (Num 0.05) (Num 100) (Num 1000) (Num 0.1);
    mk_raw (Num 0.15) (Num 50) (Num 500) (Num 0.1);
    mk_raw (Num 0.07) (Num 30) (Num 0) NaN;
    mk_raw (Num 0.5) (Num 20) (Num 0) (Str "n/a");
    mk_raw (Num 0) (Num 0) (Num 0) (Num 0.02);
    mk_raw (Num 0.12) (Num 10) (Num 100) (Num 0.04) ].

(** Three groups with the same mean margin, the first row of the file not
    being in the first interval. *)
Definition tie_table : list raw_row :=
  [ mk_raw (Num 0.15) (Num 50) (Num 500) (Num 0.1);
    mk_raw (Num 0.5) (Num 5) (Num 100) (Num 0.1);
    mk_raw (Num 0.05) (Num 100) (Num 1000) (Num 0.1);
    mk_raw (Num 0.25) (Num 10) (Num 100) (Num 0.02) ].

(** The labels a prepared row can carry. *)
Definition known_label (l : string) : Prop :=
  In l (labels ++ ["nan"%string]).

Definition rank_le (a b : string) : Prop :=
  (interval_rank a <= interval_rank b)%nat.

Definition sample_data : list row :=
  load_and_prepare_data reads_nothing sample_table.

(** A table on which the float64 computations do not round, and two on
    which they do. *)
Definition exact_table : list raw_row :=
  [ mk_raw (Num 0.05) (Num 100) (Num 1000) (Num 0.25);
    mk_raw (Num 0.07) (Num 30) (Num 250.5) NaN;
    mk_raw (Num 0.02) (Num 10) (Num 0.25) (Num 0.5);
    mk_raw (Num 0.15) (Num 50) (Num 500) (Num 0.75) ].

Definition tenths_table : list raw_row :=
  [ mk_raw (Num 0.05) (Num 1) (Num 0.1) (Num 0.5);
    mk_raw (Num 0.05) (Num 2) (Num 0.2) (Num 0.5);
    mk_raw (Num 0.05) (Num 3) (Num 0.3) (Num 0.5) ].


(** Two uploads with the same four rows of one range, in two orders. *)
Definition cancelling_table : list raw_row :=
  [ mk_raw (Num 0.05) (Num 1) (Num 1) (Num 0.5);
    mk_raw (Num 0.05) (Num 2) (Num 1e100) (Num 0.5);
    mk_raw (Num 0.05) (Num 1) (Num 1) (Num 0.5);
    mk_raw (Num 0.05) (Num 3) (Num (-1e100)) (Num 0.5) ].

Definition cancelling_table_reordered : list raw_row :=
  [ mk_raw (Num 0.05) (Num 2) (Num 1e100) (Num 0.5);
    mk_raw (Num 0.05) (Num 3) (Num (-1e100)) (Num 0.5);
    mk_raw (Num 0.05) (Num 1) (Num 1) (Num 0.5);
    mk_raw (Num 0.05) (Num 1) (Num 1) (Num 0.5) ].

(** Vocabulary of the machine level. *)


(** [q] is a float64: rounding leaves it alone. *)
Definition representable (q : Q) : Prop :=
  exists v, round64 q = Finite v /\ v == q.

(** Adding the values one after the other from [acc] never rounds: every
    running sum is a float64. *)
Fixpoint sums_exact (acc : Q) (values : list Q) : Prop :=
  match values with
  | [] => True
  | v :: values' => representable (acc + v) /\ sums_exact (acc + v) values'
  end.

Definition Zsum (l : list Z) : Z := fold_right Z.add 0%Z l.

Definition in_int64 (z : Z) : Prop := (- 2 ^ 63 <= z < 2 ^ 63)%Z.

Definition is_integer (q : Q) : Prop := q == inject_Z (Qfloor q).

(** The rows of a table that carry the label [l], and the uploaded rows
    that are prepared with the label [l]. *)
Definition rows_with_range (l : string) (data : list row) : list row :=
  filter (fun r => String.eqb (discount_range r) l) data.



Definition sales_values (data : list row) : list Q :=
  map (fun r => number_of (sales r)) data.

Definition profit_values (data : list row) : list Q :=
  map (fun r => number_of (profit r)) data.

(** What a machine sum [n] of the numbers [values] is: for int64 the int64
    that is the sum modulo [2^64], so the sum itself when that is an int64;
    for float64 the sum itself when the values are float64 and no addition
    rounds. *)
Definition is_group_sum (d : dtype) (n : number) (values : list Q) : Prop :=
  match d with
  | int64 =>
      Forall is_integer values ->
      exists z, n = I64 z /\ in_int64 z /\
        (z mod 2 ^ 64 = Zsum (map Qfloor values) mod 2 ^ 64)%Z /\
        (in_int64 (Zsum (map Qfloor values)) -> z = Zsum (map Qfloor values))
  | float64 =>
      Forall representable values -> sums_exact 0 values ->
      exists t, n = F64 (Finite t) /\ t == Qsum values
  end.

(** The number a machine sum holds, when it is finite. *)
Definition number_value (n : number) : Q :=
  match n with
  | I64 z => inject_Z z
  | F64 (Finite q) => q
  | F64 _ => 0
  end.

Definition is_finite (n : number) : Prop :=
  match n with
  | I64 _ | F64 (Finite _) => True
  | F64 _ => False
  end.


(** Two rows of two aggregates that carry the same label and, in every
    column that is int64, the same sum. *)
Definition same_label_and_int64_sums (sales_dtype profit_dtype : dtype)
  (la la' : string * np_agg_row) : Prop :=
  fst la' = fst la /\
  (sales_dtype = int64 -> np_sales (snd la') = np_sales (snd la)) /\
  (profit_dtype = int64 -> np_profit (snd la') = np_profit (snd la)).

(** * Preparation *)

Lemma Qle_bool_false (x y : Q) : Qle_bool x y = false -> y < x.
Proof.
  intros H. apply Qnot_le_lt. intros Hle.
  apply Qle_bool_iff in Hle. congruence.
Qed.

Ltac split_edge d b :=
  let E := fresh "E" in
  destruct (Qle_bool d b) eqn:E;
  [ apply Qle_bool_iff in E | apply Qle_bool_false in E ].

(** [pd.cut] with the program's [bins] and [labels], followed by
    [astype(str)], is the interval table. *)
Lemma cut_bins_labels (d : Q) :
  labelled_by_interval d (astype_str (cut (Some d) bins labels)).
Proof.
  unfold labelled_by_interval, cut, bins, labels, searchsorted.
  split_edge d 0; [ cbn; repeat split; intros; try reflexivity; exfalso; lra | ].
  split_edge d 0.1; [ cbn; repeat split; intros; try reflexivity; exfalso; lra | ].
  split_edge d 0.2; [ cbn; repeat split; intros; try reflexivity; exfalso; lra | ].
  split_edge d 0.3; [ cbn; repeat split; intros; try reflexivity; exfalso; lra | ].
  split_edge d 0.4; [ cbn; repeat split; intros; try reflexivity; exfalso; lra | ].
  split_edge d 1.0; cbn; repeat split; intros; try reflexivity; exfalso; lra.
Qed.

Section PrepareFacts.

Variable parse_number : string -> option Q.

Lemma load_app (f g : list raw_row) :
  load_and_prepare_data parse_number (f ++ g)
  = load_and_prepare_data parse_number f
    ++ load_and_prepare_data parse_number g.
Proof.
  unfold load_and_prepare_data, dropna.
  now rewrite map_app, filter_app, map_app.
Qed.

Lemma load_cons (raw : raw_row) (f : list raw_row) :
  load_and_prepare_data parse_number (raw :: f)
  = load_and_prepare_data parse_number [raw]
    ++ load_and_prepare_data parse_number f.
Proof. exact (load_app [raw] f). Qed.

Lemma load_dropped (raw : raw_row) :
  to_numeric parse_number (raw_discount raw) = None \/
  raw_profit raw = NaN \/ raw_sales raw = NaN ->
  load_and_prepare_data parse_number [raw] = [].
Proof.
  intros H. unfold load_and_prepare_data, dropna. cbn.
  unfold notna_subset, coerce; cbn.
  destruct H as [H | [H | H]]; rewrite H; cbn;
    rewrite ?andb_false_r; reflexivity.
Qed.

Lemma load_kept (raw : raw_row) (d : Q) :
  to_numeric parse_number (raw_discount raw) = Some d ->
  raw_profit raw <> NaN -> raw_sales raw <> NaN ->
  load_and_prepare_data parse_number [raw] = [prepared parse_number raw d].
Proof.
  intros Hd Hp Hs. unfold load_and_prepare_data, dropna. cbn.
  unfold notna_subset, coerce; cbn. rewrite Hd; cbn.
  destruct (raw_profit raw) eqn:Ep; try congruence;
    destruct (raw_sales raw) eqn:Es; try congruence; cbn;
    unfold add_discount_range, prepared; cbn; rewrite ?Hd, ?Ep, ?Es; reflexivity.
Qed.

Lemma load_in (r : row) (file : list raw_row) :
  In r (load_and_prepare_data parse_number file) ->
  exists raw d, In raw file /\
    to_numeric parse_number (raw_discount raw) = Some d /\
    raw_profit raw <> NaN /\ raw_sales raw <> NaN /\
    r = prepared parse_number raw d.
Proof.
  induction file as [| raw file IH]; [ intros [] | ].
  rewrite load_cons, in_app_iff. intros [H | H].
  - destruct (to_numeric parse_number (raw_discount raw)) as [d |] eqn:Ed.
    + destruct (raw_profit raw) eqn:Ep;
        [ | | rewrite load_dropped in H by auto; destruct H ];
        (destruct (raw_sales raw) eqn:Es;
         [ | | rewrite load_dropped in H by auto; destruct H ]);
        (rewrite (load_kept raw d) in H by (congruence);
         destruct H as [<- | []]; exists raw, d;
         repeat split; try (now left); congruence).
    + rewrite load_dropped in H by auto. destruct H.
  - destruct (IH H) as (raw' & d & Hin & Hrest).
    exists raw', d. split; [ now right | exact Hrest ].
Qed.

End PrepareFacts.

(** C1.  Every row of the prepared table has a discount [d], and its
    [discount_range] is fixed by [d] alone through the five intervals
    (0,0.1], (0.1,0.2], (0.2,0.3], (0.3,0.4], (0.4,1]; outside them the
    label is the text "nan".  Conversely a row with a discount, a profit
    and a sales value is in the prepared table with that label, also when
    its discount is outside all intervals: bucketing removes no row. *)
Theorem discount_range_by_interval
  (parse_number : string -> option Q) (file : list raw_row) :
  (forall r, In r (load_and_prepare_data parse_number file) ->
     exists d, discount r = Some d /\
               labelled_by_interval d (discount_range r)) /\
  (forall raw d, In raw file ->
     to_numeric parse_number (raw_discount raw) = Some d ->
     raw_profit raw <> NaN -> raw_sales raw <> NaN ->
     exists r, In r (load_and_prepare_data parse_number file) /\
               discount r = Some d /\
               profit r = raw_profit raw /\ sales r = raw_sales raw /\
               labelled_by_interval d (discount_range r)).
Proof.
  split.
  - intros r Hr. apply load_in in Hr.
    destruct Hr as (raw & d & _ & _ & _ & _ & ->).
    exists d. split; [ reflexivity | apply cut_bins_labels ].
  - intros raw d Hin Hd Hp Hs.
    exists (prepared parse_number raw d). split.
    + apply in_split in Hin. destruct Hin as (f & g & ->).
      rewrite load_app, load_cons, (load_kept _ raw d) by assumption.
      apply in_or_app. right. now left.
    + do 3 (split; [ reflexivity | ]). apply cut_bins_labels.
Qed.

Lemma discount_range_by_interval_witness :
  exists r, In r (load_and_prepare_data reads_nothing [zero_discount_row]) /\
            discount r = Some 0 /\ discount_range r = "nan"%string.
Proof.
  destruct (discount_range_by_interval reads_nothing [zero_discount_row])
    as [Hall Hkept].
  destruct (Hkept zero_discount_row 0) as (r & Hin & Hd & _ & _ & Hl);
    [ now left | reflexivity | discriminate | discriminate | ].
  destruct (Hall r Hin) as (d & Hd' & _).
  exists r. split; [ exact Hin | ]. split; [ exact Hd | ].
  apply Hl. left. apply Qle_refl.
Defined.

(** C2.  On the two-row example, preparing then aggregating gives exactly
    the two rows 0-10% (1000, 100, 10, 10) and 10-20% (500, 50, 5, 10). *)
Theorem two_rows_example (parse_number : string -> option Q) :
  exists a b,
    perform_discount_analysis (load_and_prepare_data parse_number two_rows)
    = Ok [("0-10%"%string, a); ("10-20%"%string, b)] /\
    agg_row_is a 1000 100 10 10 /\
    agg_row_is b 500 50 5 10.
Proof.
  do 2 eexists. split; [ vm_compute; reflexivity | ].
  unfold agg_row_is; cbn.
  repeat split; try (eexists; split; [ reflexivity | ]); reflexivity.
Qed.

(** C3, as the program has it.  A row is dropped, the rest of the table
    being untouched, when its discount is missing or is a text that spells
    no number, or when its profit or its sales is missing; every other row
    is kept in place, whatever its profit_margin.  A text in profit or
    sales is not missing. *)
Theorem rows_dropped_by_dropna
  (parse_number : string -> option Q) (before after : list raw_row)
  (raw : raw_row) :
  (to_numeric parse_number (raw_discount raw) = None \/
   raw_profit raw = NaN \/ raw_sales raw = NaN ->
   load_and_prepare_data parse_number (before ++ raw :: after)
   = load_and_prepare_data parse_number (before ++ after)) /\
  (forall d, to_numeric parse_number (raw_discount raw) = Some d ->
   raw_profit raw <> NaN -> raw_sales raw <> NaN ->
   load_and_prepare_data parse_number (before ++ raw :: after)
   = load_and_prepare_data parse_number before
     ++ prepared parse_number raw d
     :: load_and_prepare_data parse_number after).
Proof.
  split.
  - intros H. rewrite !load_app, load_cons, load_dropped by exact H.
    reflexivity.
  - intros d Hd Hp Hs.
    rewrite !load_app, load_cons, (load_kept _ raw d) by assumption.
    reflexivity.
Qed.

Lemma rows_dropped_by_dropna_witness :
  load_and_prepare_data reads_nothing
    ([zero_discount_row] ++ text_discount_row :: [text_margin_row])
  = load_and_prepare_data reads_nothing ([zero_discount_row] ++ [text_margin_row])
  /\
  load_and_prepare_data reads_nothing
    ([zero_discount_row] ++ text_margin_row :: [])
  = load_and_prepare_data reads_nothing [zero_discount_row]
    ++ prepared reads_nothing text_margin_row 0.05
    :: load_and_prepare_data reads_nothing [].
Proof.
  split.
  - apply (rows_dropped_by_dropna reads_nothing). left. reflexivity.
  - apply (rows_dropped_by_dropna reads_nothing);
      [ reflexivity | discriminate | discriminate ].
Defined.

(** C3 as stated fails: a row whose profit is a text that spells no number
    is not dropped. *)
Lemma text_profit_row_is_kept :
  raw_profit text_profit_row = Str "abc" /\
  reads_nothing "abc" = None /\
  load_and_prepare_data reads_nothing [text_profit_row] <> [] /\
  load_and_prepare_data reads_nothing [text_profit_row]
  = [ {| discount := Some 0.05; profit := Str "abc"; sales := Num 1000;
         profit_margin := Some (0.1 * 100); discount_range := "0-10%" |} ].
Proof. repeat split; try reflexivity. discriminate. Qed.

(** * Aggregation *)

(** ** The error monad *)

Lemma mapM_map_Ok {A B C : Type} (f : B -> result C) (g : A -> B)
  (l : list A) (cs : list C) :
  mapM f (map g l) = Ok cs -> Forall2 (fun a c => f (g a) = Ok c) l cs.
Proof.
  revert cs. induction l as [| a l IH]; cbn; intros cs H.
  - injection H as <-. constructor.
  - destruct (f (g a)) as [c | e] eqn:Ea; cbn in H; [ | discriminate ].
    destruct (mapM f (map g l)) as [cs' | e] eqn:El; cbn in H; [ | discriminate ].
    injection H as <-. constructor; auto.
Qed.

Lemma mapM_map_total {A B C : Type} (f : B -> result C) (g : A -> B)
  (l : list A) :
  (forall a, In a l -> exists c, f (g a) = Ok c) ->
  exists cs, mapM f (map g l) = Ok cs.
Proof.
  induction l as [| a l IH]; cbn; intros H.
  - now exists [].
  - destruct (H a) as [c Hc]; [ now left | ].
    destruct IH as [cs Hcs]; [ intros a' Ha'; apply H; now right | ].
    exists (c :: cs). now rewrite Hc, Hcs.
Qed.

(** ** Sums *)

Lemma Qsum_map_ext {A : Type} (f g : A -> Q) (l : list A) :
  (forall a, In a l -> f a == g a) -> Qsum (map f l) == Qsum (map g l).
Proof.
  induction l as [| a l IH]; cbn; intros H; [ reflexivity | ].
  rewrite (H a) by now left.
  rewrite IH by (intros a' Ha'; apply H; now right). reflexivity.
Qed.

Lemma Qsum_map_plus {A : Type} (f g : A -> Q) (l : list A) :
  Qsum (map (fun a => f a + g a) l) == Qsum (map f l) + Qsum (map g l).
Proof.
  induction l as [| a l IH]; cbn; [ lra | rewrite IH; lra ].
Qed.

Lemma Qsum_map_zero {A : Type} (l : list A) : Qsum (map (fun _ => 0) l) == 0.
Proof.
  induction l as [| a l IH]; cbn; [ reflexivity | rewrite IH; lra ].
Qed.

Lemma Qsum_no_key (k : string) (v : Q) (ks : list string) :
  ~ In k ks ->
  Qsum (map (fun k' => if String.eqb k k' then v else 0) ks) == 0.
Proof.
  induction ks as [| k' ks IH]; cbn; intros Hnotin; [ reflexivity | ].
  destruct (String.eqb_spec k k') as [-> | Hne]; [ tauto | ].
  rewrite IH by tauto. lra.
Qed.

(** Exactly one key of a duplicate-free list is the key of a given row. *)
Lemma Qsum_one_key (k : string) (v : Q) (ks : list string) :
  NoDup ks -> In k ks ->
  Qsum (map (fun k' => if String.eqb k k' then v else 0) ks) == v.
Proof.
  induction 1 as [| k' ks Hnotin Hnodup IH]; cbn; [ tauto | ].
  intros [-> | Hin].
  - rewrite String.eqb_refl, Qsum_no_key by assumption. lra.
  - destruct (String.eqb_spec k k') as [-> | Hne]; [ contradiction | ].
    rewrite IH by assumption. lra.
Qed.

Lemma sum_column_Ok (c : list cell) (s : Q) :
  sum_column c = Ok s ->
  s == Qsum (map number_of c) /\ Forall (fun x => is_text x = false) c.
Proof.
  revert s. induction c as [| x c IH]; cbn; intros s H.
  - injection H as <-. split; [ reflexivity | constructor ].
  - destruct x as [q | t |]; [ | discriminate | ].
    + destruct (sum_column c) as [s' | e]; cbn in H; [ | discriminate ].
      injection H as <-. destruct (IH s' eq_refl) as [Hs Hall].
      split; [ cbn; rewrite Hs; reflexivity | now constructor ].
    + destruct (IH s H) as [Hs Hall].
      split; [ cbn; rewrite Hs; lra | now constructor ].
Qed.

Lemma sum_column_total (c : list cell) :
  Forall (fun x => is_text x = false) c -> exists s, sum_column c = Ok s.
Proof.
  induction 1 as [| x c Hx Hc [s Hs]]; cbn; [ now exists 0 | ].
  destruct x as [q | t |]; [ | discriminate | ].
  - rewrite Hs. cbn. now eexists.
  - now exists s.
Qed.

(** ** Group keys *)

Lemma unique_In (k : string) (ks : list string) : In k (unique ks) <-> In k ks.
Proof.
  induction ks as [| k' ks IH]; cbn; [ tauto | ].
  destruct (string_dec k k') as [-> | Hne]; [ tauto | ].
  split.
  - intros [H | H]; [ now left | ].
    apply in_remove in H. right. now apply IH.
  - intros [H | H]; [ now left | ].
    right. apply in_in_remove; [ exact Hne | now apply IH ].
Qed.

Lemma NoDup_remove_key (k : string) (ks : list string) :
  NoDup ks -> NoDup (remove string_dec k ks).
Proof.
  induction 1 as [| k' ks Hnotin Hnodup IH]; cbn; [ constructor | ].
  destruct (string_dec k k'); [ exact IH | ].
  constructor; [ | exact IH ].
  intros H. apply in_remove in H. tauto.
Qed.

Lemma unique_NoDup (ks : list string) : NoDup (unique ks).
Proof.
  induction ks as [| k ks IH]; cbn; constructor.
  - apply remove_In.
  - now apply NoDup_remove_key.
Qed.

Lemma insert_sorted_perm (k : string) (ks : list string) :
  Permutation (k :: ks) (insert_sorted k ks).
Proof.
  induction ks as [| k' ks IH]; cbn; [ reflexivity | ].
  destruct (String.leb k k'); [ reflexivity | ].
  rewrite perm_swap. now constructor.
Qed.

Lemma sort_keys_perm (ks : list string) : Permutation ks (sort_keys ks).
Proof.
  induction ks as [| k ks IH]; cbn; [ constructor | ].
  rewrite <- insert_sorted_perm. now constructor.
Qed.

Lemma group_keys_In (data : list row) (k : string) :
  In k (group_keys data) <-> exists r, In r data /\ discount_range r = k.
Proof.
  unfold group_keys. split.
  - intros H. apply (Permutation_in _ (Permutation_sym (sort_keys_perm _))) in H.
    apply unique_In, in_map_iff in H. destruct H as (r & Hr & Hin). eauto.
  - intros (r & Hin & <-).
    apply (Permutation_in _ (sort_keys_perm _)), unique_In, in_map. exact Hin.
Qed.

Lemma group_keys_NoDup (data : list row) : NoDup (group_keys data).
Proof.
  unfold group_keys.
  apply (Permutation_NoDup (sort_keys_perm _)), unique_NoDup.
Qed.

Lemma group_of_In (data : list row) (k : string) (r : row) :
  In r (group_of data k) <-> In r data /\ discount_range r = k.
Proof.
  unfold group_of. rewrite filter_In.
  now destruct (String.eqb_spec (discount_range r) k).
Qed.

(** Every row is in the group of exactly one key: summing a quantity group
    by group gives its sum over the table. *)
Lemma groups_partition (f : row -> Q) (data : list row) (ks : list string) :
  NoDup ks ->
  (forall r, In r data -> In (discount_range r) ks) ->
  Qsum (map (fun k => Qsum (map f (group_of data k))) ks) == Qsum (map f data).
Proof.
  intros Hnodup. induction data as [| r data IH]; intros Hkeys.
  - cbn. apply Qsum_map_zero.
  - cbn [map Qsum].
    rewrite <- IH by (intros r' Hr'; apply Hkeys; now right).
    rewrite <- (Qsum_one_key (discount_range r) (f r) ks Hnodup)
      by (apply Hkeys; now left).
    rewrite <- Qsum_map_plus. apply Qsum_map_ext. intros k _.
    unfold group_of. cbn [filter].
    destruct (String.eqb (discount_range r) k); cbn; lra.
Qed.

(** ** The aggregate, row by row *)

Lemma agg_group_Ok (k : string) (g : list row) (la : string * agg_row) :
  agg_group (k, g) = Ok la ->
  fst la = k /\
  agg_sales (snd la) == Qsum (map (fun r => number_of (sales r)) g) /\
  agg_profit (snd la) == Qsum (map (fun r => number_of (profit r)) g) /\
  agg_profit_margin (snd la) = mean (map profit_margin g) /\
  profit_to_sales_ratio (snd la)
  = xtimes_100 (true_divide (agg_profit (snd la)) (agg_sales (snd la))) /\
  Forall (fun r => is_text (sales r) = false /\ is_text (profit r) = false) g.
Proof.
  unfold agg_group. cbn [fst snd]. intros H.
  destruct (sum_column (map sales g)) as [s | e] eqn:Es; cbn in H; [ | discriminate ].
  destruct (sum_column (map profit g)) as [p | e] eqn:Ep; cbn in H; [ | discriminate ].
  injection H as <-. cbn.
  apply sum_column_Ok in Es, Ep. destruct Es as [Es Hs], Ep as [Ep Hp].
  rewrite map_map in Es, Ep.
  repeat split; try assumption.
  rewrite Forall_map in Hs, Hp. rewrite Forall_forall in *.
  intros r Hr. split; [ now apply Hs | now apply Hp ].
Qed.

Lemma agg_group_total (k : string) (g : list row) :
  Forall (fun r => is_text (sales r) = false /\ is_text (profit r) = false) g ->
  exists a, agg_group (k, g) = Ok (k, a).
Proof.
  intros H. unfold agg_group. cbn [fst snd].
  destruct (sum_column_total (map sales g)) as [s ->].
  { rewrite Forall_map. revert H. apply Forall_impl. tauto. }
  destruct (sum_column_total (map profit g)) as [p ->].
  { rewrite Forall_map. revert H. apply Forall_impl. tauto. }
  cbn. now eexists.
Qed.

Lemma analysis_Ok (data : list row) (agg : list (string * agg_row)) :
  perform_discount_analysis data = Ok agg ->
  Forall2 (fun k la => agg_group (k, group_of data k) = Ok la)
    (group_keys data) agg.
Proof.
  unfold perform_discount_analysis, groupby. apply mapM_map_Ok.
Qed.

Lemma analysis_index (data : list row) (agg : list (string * agg_row)) :
  perform_discount_analysis data = Ok agg -> map fst agg = group_keys data.
Proof.
  intros H. apply analysis_Ok in H.
  induction H as [| k la ks agg Hk _ IH]; cbn; [ reflexivity | ].
  apply agg_group_Ok in Hk. destruct Hk as [-> _]. now rewrite IH.
Qed.

Lemma analysis_In (data : list row) (agg : list (string * agg_row))
  (l : string) (a : agg_row) :
  perform_discount_analysis data = Ok agg -> In (l, a) agg ->
  In l (group_keys data) /\ agg_group (l, group_of data l) = Ok (l, a).
Proof.
  intros H Hin. apply analysis_Ok in H.
  induction H as [| k la ks agg Hk _ IH]; [ destruct Hin | ].
  destruct Hin as [-> | Hin].
  - destruct (agg_group_Ok _ _ _ Hk) as [Hfst _]. cbn in Hfst. subst k.
    split; [ now left | exact Hk ].
  - destruct (IH Hin) as [H1 H2]. split; [ now right | exact H2 ].
Qed.

Lemma analysis_numeric (data : list row) (agg : list (string * agg_row)) :
  perform_discount_analysis data = Ok agg -> numeric_columns data.
Proof.
  intros H. apply Forall_forall. intros r Hr.
  assert (Hk : In (discount_range r) (group_keys data))
    by (apply group_keys_In; eauto).
  apply analysis_Ok in H.
  induction H as [| k la ks agg Hk' _ IH]; [ destruct Hk | ].
  destruct Hk as [-> | Hk]; [ | auto ].
  apply agg_group_Ok in Hk'. destruct Hk' as (_ & _ & _ & _ & _ & Hall).
  rewrite Forall_forall in Hall. apply Hall, group_of_In. auto.
Qed.

Lemma analysis_total (data : list row) :
  numeric_columns data -> exists agg, perform_discount_analysis data = Ok agg.
Proof.
  intros H. unfold perform_discount_analysis, groupby.
  apply mapM_map_total. intros k _.
  destruct (agg_group_total k (group_of data k)) as [a Ha]; [ | eauto ].
  apply Forall_forall. intros r Hr. apply group_of_In in Hr.
  unfold numeric_columns in H. rewrite Forall_forall in H. now apply H.
Qed.

Lemma sample_analysis :
  exists agg a,
    perform_discount_analysis sample_data = Ok agg /\
    In ("0-10%"%string, a) agg /\
    margins_of sample_data "0-10%" <> [].
Proof.
  assert (E : exists agg, perform_discount_analysis sample_data = Ok agg)
    by (vm_compute; eexists; reflexivity).
  destruct E as [agg E]. pose proof E as E'.
  vm_compute in E'. injection E' as <-.
  eexists. eexists. split; [ exact E | ].
  split; [ now left | vm_compute; discriminate ].
Qed.

(** ** Means *)





Lemma mean_all_na (c : list float) : notna_values c = [] -> mean c = None.
Proof. unfold mean. now intros ->. Qed.







(** ** Division by zero *)

Lemma true_divide_zero (p s : Q) :
  s == 0 -> non_finite (xtimes_100 (true_divide p s)).
Proof.
  intros Hs. unfold true_divide.
  apply Qeq_bool_iff in Hs. rewrite Hs.
  destruct (Qeq_bool p 0); [ exact I | ].
  destruct (Qle_bool 0 p); exact I.
Qed.

(** C8.  When no surviving row has a text in [profit] or [sales], the
    analysis returns an aggregate with one row per key of the prepared
    table, and in a row whose [sales] total is 0 the ratio is an infinity
    or NaN: the division raises nothing. *)
Theorem zero_sales_ratio_not_finite (data : list row) :
  numeric_columns data ->
  exists agg,
    perform_discount_analysis data = Ok agg /\
    map fst agg = group_keys data /\
    (forall r, In r data -> exists a, In (discount_range r, a) agg) /\
    (forall l a, In (l, a) agg -> agg_sales a == 0 ->
                 non_finite (profit_to_sales_ratio a)).
Proof.
  intros Hnum. destruct (analysis_total data Hnum) as [agg Hagg].
  exists agg. split; [ exact Hagg | ].
  pose proof (analysis_index _ _ Hagg) as Hidx.
  split; [ exact Hidx | split ].
  - intros r Hr.
    assert (Hk : In (discount_range r) (map fst agg))
      by (rewrite Hidx; apply group_keys_In; eauto).
    apply in_map_iff in Hk. destruct Hk as ([l a] & Hl & Hin).
    cbn in Hl. subst l. eauto.
  - intros l a Hin Hzero.
    destruct (analysis_In _ _ _ _ Hagg Hin) as [_ Hg].
    apply agg_group_Ok in Hg. cbn [fst snd] in Hg.
    destruct Hg as (_ & _ & _ & _ & -> & _).
    now apply true_divide_zero.
Qed.

Lemma sample_numeric : numeric_columns sample_data.
Proof. repeat constructor. Qed.

Lemma zero_sales_ratio_not_finite_witness :
  exists agg a,
    perform_discount_analysis sample_data = Ok agg /\
    In ("40%+"%string, a) agg /\ agg_sales a == 0 /\
    non_finite (profit_to_sales_ratio a).
Proof.
  destruct (zero_sales_ratio_not_finite sample_data sample_numeric)
    as (agg & E & _ & _ & Hratio).
  assert (Hin : exists a, In ("40%+"%string, a) agg /\ agg_sales a == 0).
  { vm_compute in E. injection E as <-. eexists. split.
    - right. right. left. reflexivity.
    - reflexivity. }
  destruct Hin as (a & Hin & Hzero).
  exists agg, a. split; [ exact E | ]. split; [ exact Hin | ].
  split; [ exact Hzero | exact (Hratio _ a Hin Hzero) ].
Defined.

(** ** [idxmax] *)

(** Where [argmax_from] lands: on [best] when nothing after it is larger,
    otherwise on the first largest value after it. *)
Lemma argmax_from_spec (s : list (string * float)) :
  forall (best : string * Q) (l : string),
    argmax_from best s = l ->
    (l = fst best /\
     forall l' m', In (l', Some m') s -> m' <= snd best) \/
    (exists s1 m s2,
        s = s1 ++ (l, Some m) :: s2 /\ snd best < m /\
        (forall l' m', In (l', Some m') s1 -> m' < m) /\
        (forall l' m', In (l', Some m') s2 -> m' <= m)).
Proof.
  induction s as [| [l0 [v |]] s IH]; intros best l H; cbn in H.
  - left. split; [ now symmetry | intros l' m' [] ].
  - destruct (Qle_bool v (snd best)) eqn:Ev.
    + apply Qle_bool_iff in Ev.
      destruct (IH best l H) as [[Hl Hle] | (s1 & m & s2 & -> & Hlt & H1 & H2)].
      * left. split; [ exact Hl | ].
        intros l' m' [E | Hin]; [ injection E as _ <-; exact Ev | eauto ].
      * right. exists ((l0, Some v) :: s1), m, s2.
        split; [ reflexivity | split; [ exact Hlt | split; [ | exact H2 ] ] ].
        intros l' m' [E | Hin]; [ injection E as _ <-; lra | eauto ].
    + apply Qle_bool_false in Ev.
      destruct (IH (l0, v) l H) as [[Hl Hle] | (s1 & m & s2 & -> & Hlt & H1 & H2)];
        cbn [fst snd] in *.
      * right. exists [], v, s. rewrite Hl.
        split; [ reflexivity | split; [ exact Ev | split; [ | exact Hle ] ] ].
        intros l' m' [].
      * right. exists ((l0, Some v) :: s1), m, s2.
        split; [ reflexivity | split; [ lra | split; [ | exact H2 ] ] ].
        intros l' m' [E | Hin]; [ injection E as _ <-; exact Hlt | eauto ].
  - destruct (IH best l H) as [[Hl Hle] | (s1 & m & s2 & -> & Hlt & H1 & H2)].
    + left. split; [ exact Hl | ].
      intros l' m' [E | Hin]; [ discriminate E | eauto ].
    + right. exists ((l0, None) :: s1), m, s2.
      split; [ reflexivity | split; [ exact Hlt | split; [ | exact H2 ] ] ].
      intros l' m' [E | Hin]; [ discriminate E | eauto ].
Qed.

(** [idxmax] returns the first occurrence of the largest value that is not
    NaN. *)
Lemma first_notna_spec (s : list (string * float)) (l : string) :
  first_notna s = Some l ->
  exists s1 m s2,
    s = s1 ++ (l, Some m) :: s2 /\
    (forall l' m', In (l', Some m') s1 -> m' < m) /\
    (forall l' m', In (l', Some m') s2 -> m' <= m).
Proof.
  induction s as [| [l0 [v |]] s IH]; cbn; intros H; [ discriminate | | ].
  - injection H as H.
    destruct (argmax_from_spec s (l0, v) l H)
      as [[Hl Hle] | (s1 & m & s2 & -> & Hlt & H1 & H2)]; cbn [fst snd] in *.
    + rewrite Hl. exists [], v, s. split; [ reflexivity | ].
      split; [ intros l' m' [] | exact Hle ].
    + exists ((l0, Some v) :: s1), m, s2.
      split; [ reflexivity | split; [ | exact H2 ] ].
      intros l' m' [E | Hin]; [ injection E as _ <-; exact Hlt | eauto ].
  - destruct (IH H) as (s1 & m & s2 & -> & H1 & H2).
    exists ((l0, None) :: s1), m, s2.
    split; [ reflexivity | split; [ | exact H2 ] ].
    intros l' m' [E | Hin]; [ discriminate E | eauto ].
Qed.

Lemma idxmax_Some (s : list (string * float)) (l : string) :
  idxmax s = Ok (Some l) -> first_notna s = Some l.
Proof.
  destruct s; cbn; [ discriminate | intros H; now injection H ].
Qed.

(** The split of the margin column found by [idxmax], read on the
    aggregate. *)
Lemma idxmax_split (agg : list (string * agg_row)) (l : string) :
  idxmax (column_profit_margin agg) = Ok (Some l) ->
  exists a m pre post,
    agg = pre ++ (l, a) :: post /\
    agg_profit_margin a = Some m /\
    (forall l' a' m', In (l', a') pre ->
       agg_profit_margin a' = Some m' -> m' < m) /\
    (forall l' a' m', In (l', a') post ->
       agg_profit_margin a' = Some m' -> m' <= m).
Proof.
  intros H. apply idxmax_Some, first_notna_spec in H.
  destruct H as (s1 & m & s2 & Hs & H1 & H2).
  unfold column_profit_margin in Hs.
  apply map_eq_app in Hs. destruct Hs as (pre & rest & -> & Hpre & Hrest).
  apply map_eq_cons in Hrest.
  destruct Hrest as ([l0 a] & post & -> & Hla & Hpost).
  cbn in Hla. injection Hla as -> Hm.
  exists a, m, pre, post. split; [ reflexivity | split; [ exact Hm | split ] ].
  - intros l' a' m' Hin Hm'. apply (H1 l'). rewrite <- Hpre.
    apply in_map_iff. exists (l', a'). cbn. rewrite Hm'. auto.
  - intros l' a' m' Hin Hm'. apply (H2 l'). rewrite <- Hpost.
    apply in_map_iff. exists (l', a'). cbn. rewrite Hm'. auto.
Qed.

Lemma notna_values_nil (c : list float) :
  (forall x, In x c -> x = None) -> notna_values c = [].
Proof.
  induction c as [| [q |] c IH]; cbn; intros H; [ reflexivity | | ].
  - discriminate (H (Some q)). now left.
  - apply IH. intros x Hx. apply H. now right.
Qed.

(** C10.  A group whose rows all lack a profit_margin gets NaN as its
    [profit_margin] entry, and the analysis still returns; the label that
    [idxmax] returns is that of a group whose entry is a number, the
    largest of the entries that are numbers. *)
Theorem all_missing_margin_group (data : list row) :
  numeric_columns data ->
  exists agg,
    perform_discount_analysis data = Ok agg /\
    (forall l a, In (l, a) agg ->
       (forall r, In r (group_of data l) -> profit_margin r = None) ->
       agg_profit_margin a = None) /\
    (forall l, idxmax (column_profit_margin agg) = Ok (Some l) ->
       exists a m,
         In (l, a) agg /\ agg_profit_margin a = Some m /\
         forall l' a' m', In (l', a') agg ->
           agg_profit_margin a' = Some m' -> m' <= m).
Proof.
  intros Hnum. destruct (analysis_total data Hnum) as [agg Hagg].
  exists agg. split; [ exact Hagg | split ].
  - intros l a Hin Hnone.
    destruct (analysis_In _ _ _ _ Hagg Hin) as [_ Hg].
    apply agg_group_Ok in Hg. cbn [fst snd] in Hg.
    destruct Hg as (_ & _ & _ & -> & _).
    apply mean_all_na, notna_values_nil.
    intros x Hx. apply in_map_iff in Hx. destruct Hx as (r & <- & Hr). auto.
  - intros l Hl. apply idxmax_split in Hl.
    destruct Hl as (a & m & pre & post & -> & Hm & Hpre & Hpost).
    exists a, m. split; [ apply in_elt | split; [ exact Hm | ] ].
    intros l' a' m' Hin Hm'. apply in_app_or in Hin.
    destruct Hin as [Hin | [E | Hin]].
    + apply Qlt_le_weak. eauto.
    + injection E as _ <-. rewrite Hm in Hm'. injection Hm' as <-.
      apply Qle_refl.
    + eauto.
Qed.

Lemma all_missing_margin_group_witness :
  exists agg a l,
    perform_discount_analysis sample_data = Ok agg /\
    In ("40%+"%string, a) agg /\ agg_profit_margin a = None /\
    idxmax (column_profit_margin agg) = Ok (Some l) /\
    l <> "40%+"%string.
Proof.
  destruct (all_missing_margin_group sample_data sample_numeric)
    as (agg & E & Hnone & Hmax).
  pose proof E as E'. vm_compute in E'. injection E' as E'.
  assert (Hin : exists a, In ("40%+"%string, a) agg).
  { rewrite <- E'. eexists. right. right. left. reflexivity. }
  destruct Hin as [a Hin].
  assert (Hidx : idxmax (column_profit_margin agg) = Ok (Some "0-10%"%string)).
  { rewrite <- E'. vm_compute. reflexivity. }
  destruct (Hmax _ Hidx) as (a' & m & _).
  exists agg, a, "0-10%"%string.
  split; [ exact E | ]. split; [ exact Hin | ].
  split; [ | split; [ exact Hidx | discriminate ] ].
  apply (Hnone _ a Hin). intros r Hr. vm_compute in Hr.
  destruct Hr as [<- | []]. reflexivity.
Defined.

(** ** The order of the groups *)

Lemma cut_known_label (d : Q) :
  known_label (astype_str (cut (Some d) bins labels)).
Proof.
  unfold known_label, cut, bins, labels, searchsorted.
  repeat match goal with
         | |- context [Qle_bool d ?b] => destruct (Qle_bool d b)
         end; cbn; tauto.
Qed.

Lemma load_known_label (parse_number : string -> option Q)
  (file : list raw_row) (r : row) :
  In r (load_and_prepare_data parse_number file) ->
  known_label (discount_range r).
Proof.
  intros H. apply load_in in H. destruct H as (raw & d & _ & _ & _ & _ & ->).
  apply cut_known_label.
Qed.

(** On the labels of the program, Python's order of [str] is the interval
    order, the placeholder "nan" coming last. *)
Lemma leb_interval_rank (a b : string) :
  known_label a -> known_label b ->
  String.leb a b = (interval_rank a <=? interval_rank b)%nat.
Proof.
  unfold known_label, labels. cbn [app In].
  intros Ha Hb.
  repeat match goal with
         | H : _ \/ _ |- _ => destruct H as [H | H]
         | H : False |- _ => destruct H
         end; subst; reflexivity.
Qed.

Lemma interval_rank_inj (a b : string) :
  known_label a -> known_label b ->
  interval_rank a = interval_rank b -> a = b.
Proof.
  unfold known_label, labels. cbn [app In].
  intros Ha Hb.
  repeat match goal with
         | H : _ \/ _ |- _ => destruct H as [H | H]
         | H : False |- _ => destruct H
         end; subst; cbn; intros E; try reflexivity; discriminate E.
Qed.

Lemma insert_sorted_In (k k' : string) (ks : list string) :
  In k' (insert_sorted k ks) -> k' = k \/ In k' ks.
Proof.
  intros H.
  apply (Permutation_in _ (Permutation_sym (insert_sorted_perm k ks))) in H.
  destruct H; auto.
Qed.

Lemma insert_sorted_rank (k : string) (ks : list string) :
  known_label k -> Forall known_label ks ->
  StronglySorted rank_le ks -> StronglySorted rank_le (insert_sorted k ks).
Proof.
  intros Hk Hks Hsorted.
  induction Hsorted as [| k' ks Hsorted IH Hall]; cbn.
  - repeat constructor.
  - inversion Hks as [| ? ? Hk' Hks']; subst.
    rewrite (leb_interval_rank k k' Hk Hk').
    destruct (Nat.leb_spec (interval_rank k) (interval_rank k')) as [Hle | Hlt].
    + constructor; [ now constructor | ].
      constructor; [ exact Hle | ].
      revert Hall. apply Forall_impl. unfold rank_le. intros; lia.
    + constructor; [ now apply IH | ].
      apply Forall_forall. intros x Hx. apply insert_sorted_In in Hx.
      destruct Hx as [-> | Hx]; [ unfold rank_le; lia | ].
      rewrite Forall_forall in Hall. now apply Hall.
Qed.

Lemma sort_keys_rank (ks : list string) :
  Forall known_label ks -> StronglySorted rank_le (sort_keys ks).
Proof.
  induction 1 as [| k ks Hk Hks IH]; cbn; [ constructor | ].
  apply insert_sorted_rank; [ exact Hk | | exact IH ].
  apply Forall_forall. intros x Hx.
  apply (Permutation_in _ (Permutation_sym (sort_keys_perm ks))) in Hx.
  rewrite Forall_forall in Hks. now apply Hks.
Qed.

Lemma group_keys_rank (data : list row) :
  Forall (fun r => known_label (discount_range r)) data ->
  StronglySorted rank_le (group_keys data).
Proof.
  intros H. unfold group_keys. apply sort_keys_rank.
  apply Forall_forall. intros k Hk. apply unique_In, in_map_iff in Hk.
  destruct Hk as (r & <- & Hr). rewrite Forall_forall in H. now apply H.
Qed.

Lemma StronglySorted_after {A : Type} (R : A -> A -> Prop)
  (xs ys : list A) (x : A) :
  StronglySorted R (xs ++ x :: ys) -> Forall (R x) ys.
Proof.
  induction xs as [| x' xs IH]; cbn; intros H;
    apply StronglySorted_inv in H; destruct H as [Hs Hall];
    [ exact Hall | now apply IH ].
Qed.

(** C7.  The recommended range is the first row of the aggregate that
    carries the largest mean margin; the rows of the aggregate come in the
    interval order 0-10%, 10-20%, 20-30%, 30-40%, 40%+ (then the
    placeholder), so among several groups with the largest mean margin the
    one that is first in that order is recommended. *)
Theorem recommendation_tie_break
  (parse_number : string -> option Q) (file : list raw_row)
  (agg : list (string * agg_row)) (l : string) :
  perform_discount_analysis (load_and_prepare_data parse_number file) = Ok agg ->
  idxmax (column_profit_margin agg) = Ok (Some l) ->
  exists a m pre post,
    agg = pre ++ (l, a) :: post /\
    agg_profit_margin a = Some m /\
    StronglySorted rank_le (map fst agg) /\
    (forall l' a' m', In (l', a') pre ->
       agg_profit_margin a' = Some m' -> m' < m) /\
    (forall l' a' m', In (l', a') post ->
       agg_profit_margin a' = Some m' -> m' <= m) /\
    (forall l' a' m', In (l', a') agg ->
       agg_profit_margin a' = Some m' -> m' == m -> l' <> l ->
       (interval_rank l < interval_rank l')%nat).
Proof.
  intros Hagg Hidx.
  assert (Hknown : Forall (fun r => known_label (discount_range r))
                     (load_and_prepare_data parse_number file))
    by (apply Forall_forall; intros r; apply load_known_label).
  pose proof (group_keys_rank _ Hknown) as Hsorted.
  rewrite <- (analysis_index _ _ Hagg) in Hsorted.
  assert (Hlabels : forall l' a', In (l', a') agg -> known_label l').
  { intros l' a' Hin. destruct (analysis_In _ _ _ _ Hagg Hin) as [Hk _].
    apply group_keys_In in Hk. destruct Hk as (r & Hr & <-).
    rewrite Forall_forall in Hknown. now apply Hknown. }
  destruct (idxmax_split _ _ Hidx)
    as (a & m & pre & post & Hsplit & Hm & Hpre & Hpost).
  exists a, m, pre, post.
  split; [ exact Hsplit | ]. split; [ exact Hm | ].
  split; [ exact Hsorted | ]. split; [ exact Hpre | ]. split; [ exact Hpost | ].
  intros l' a' m' Hin Hm' Htie Hne.
  assert (Hle : rank_le l l').
  { rewrite Hsplit in Hin. apply in_app_or in Hin.
    destruct Hin as [Hin | [E | Hin]].
    - pose proof (Hpre _ _ _ Hin Hm'). lra.
    - injection E as <- _. unfold rank_le. lia.
    - rewrite Hsplit, map_app in Hsorted. cbn [map fst] in Hsorted.
      apply StronglySorted_after in Hsorted.
      rewrite Forall_forall in Hsorted. apply Hsorted.
      apply in_map_iff. exists (l', a'). auto. }
  unfold rank_le in Hle.
  destruct (Nat.eq_dec (interval_rank l) (interval_rank l')) as [E | E];
    [ | lia ].
  exfalso. apply Hne. symmetry. apply interval_rank_inj; try exact E.
  - apply (Hlabels l a). rewrite Hsplit. apply in_elt.
  - now apply (Hlabels l' a').
Qed.

Lemma recommendation_tie_break_witness :
  exists agg a1 a2 m,
    perform_discount_analysis (load_and_prepare_data reads_nothing tie_table)
    = Ok agg /\
    idxmax (column_profit_margin agg) = Ok (Some "0-10%"%string) /\
    In ("0-10%"%string, a1) agg /\ agg_profit_margin a1 = Some m /\
    In ("10-20%"%string, a2) agg /\ agg_profit_margin a2 = Some m /\
    (interval_rank "0-10%" < interval_rank "10-20%")%nat.
Proof.
  assert (E : exists agg,
             perform_discount_analysis
               (load_and_prepare_data reads_nothing tie_table) = Ok agg)
    by (vm_compute; eexists; reflexivity).
  destruct E as [agg E].
  pose proof E as E'. vm_compute in E'. injection E' as E'.
  assert (Hidx : idxmax (column_profit_margin agg) = Ok (Some "0-10%"%string))
    by (rewrite <- E'; vm_compute; reflexivity).
  assert (Hin : exists a1 a2 m,
             In ("0-10%"%string, a1) agg /\ agg_profit_margin a1 = Some m /\
             In ("10-20%"%string, a2) agg /\ agg_profit_margin a2 = Some m).
  { rewrite <- E'. do 3 eexists.
    split; [ left; reflexivity | ]. split; [ reflexivity | ].
    split; [ right; left; reflexivity | reflexivity ]. }
  destruct Hin as (a1 & a2 & m & Hin1 & Hm1 & Hin2 & Hm2).
  destruct (recommendation_tie_break reads_nothing tie_table agg _ E Hidx)
    as (a & m0 & pre & post & Hsplit & Hm & _ & _ & _ & Hties).
  exists agg, a1, a2, m.
  split; [ exact E | ]. split; [ exact Hidx | ].
  split; [ exact Hin1 | ]. split; [ exact Hm1 | ].
  split; [ exact Hin2 | ]. split; [ exact Hm2 | ].
  apply (Hties _ a2 m Hin2 Hm2); [ | discriminate ].
  assert (Ha : In ("0-10%"%string, a) agg) by (rewrite Hsplit; apply in_elt).
  rewrite <- E' in Ha, Hin1. cbn in Ha, Hin1.
  destruct Ha as [Ha | [Ha | [Ha | [Ha | []]]]]; try discriminate Ha.
  destruct Hin1 as [H1 | [H1 | [H1 | [H1 | []]]]]; try discriminate H1.
  injection Ha as <-. injection H1 as <-.
  rewrite Hm1 in Hm. injection Hm as <-. reflexivity.
Defined.

(** * The recommendation on an empty table *)

(** C6, as the program has it.  When every row of the upload is dropped
    the aggregate is empty, and the Recommendations view raises
    [ValueError]: [idxmax] is called on an empty column and nothing guards
    it. *)
Theorem empty_table_recommendation_raises
  (parse_number : string -> option Q) (file : list raw_row) :
  load_and_prepare_data parse_number file = [] ->
  perform_discount_analysis (load_and_prepare_data parse_number file) = Ok [] /\
  main parse_number (Some file) Recommendations = Raise ValueError.
Proof.
  intros H. unfold main. rewrite H. split; reflexivity.
Qed.

Lemma empty_table_recommendation_raises_witness :
  perform_discount_analysis
    (load_and_prepare_data reads_nothing [text_discount_row]) = Ok [] /\
  main reads_nothing (Some [text_discount_row]) Recommendations
  = Raise ValueError.
Proof.
  apply (empty_table_recommendation_raises reads_nothing [text_discount_row]).
  reflexivity.
Defined.

(** C6 as stated fails: on an upload whose only row has no discount, no
    page with a "no recommendation" result is produced; the view raises. *)
Lemma no_valid_row_raises :
  load_and_prepare_data reads_nothing [mk_raw NaN (Num 100) (Num 1000) (Num 0.1)]
  = [] /\
  main reads_nothing (Some [mk_raw NaN (Num 100) (Num 1000) (Num 0.1)])
    Recommendations = Raise ValueError /\
  ~ (exists p : page,
       main reads_nothing (Some [mk_raw NaN (Num 100) (Num 1000) (Num 0.1)])
         Recommendations = Ok p).
Proof.
  split; [ reflexivity | ]. split; [ reflexivity | ].
  intros [p Hp]. discriminate Hp.
Qed.



(** * Further properties of the preparation *)

(** X1.  Every row of the prepared table has a numeric discount, a profit
    and a sales cell that are not NaN, and one of the six texts 0-10%,
    10-20%, 20-30%, 30-40%, 40%+, nan as its discount_range. *)
Theorem prepared_rows_invariant
  (parse_number : string -> option Q) (file : list raw_row) (r : row) :
  In r (load_and_prepare_data parse_number file) ->
  (exists d, discount r = Some d) /\
  profit r <> NaN /\ sales r <> NaN /\
  known_label (discount_range r).
Proof.
  intros H. pose proof (load_known_label _ _ _ H) as Hl.
  apply load_in in H. destruct H as (raw & d & _ & _ & Hp & Hs & ->).
  cbn in *. eauto.
Qed.

Lemma prepared_rows_invariant_witness :
  exists r,
    In r (load_and_prepare_data reads_nothing [text_profit_row]) /\
    discount r = Some 0.05 /\ profit r <> NaN /\ sales r <> NaN /\
    known_label (discount_range r).
Proof.
  eexists. split; [ left; reflexivity | ]. split; [ reflexivity | ].
  apply (prepared_rows_invariant reads_nothing [text_profit_row]).
  left. reflexivity.
Defined.

(** X2.  Every uploaded row is accounted for: it is in the prepared table,
    or it is one of the rows whose discount is not a number or whose profit
    or sales is NaN. *)
Theorem prepared_and_dropped_rows
  (parse_number : string -> option Q) (file : list raw_row) :
  (List.length (load_and_prepare_data parse_number file)
   + List.length
       (filter (fun raw =>
                  isna_float (to_numeric parse_number (raw_discount raw))
                  || isna (raw_profit raw) || isna (raw_sales raw)) file)
   = List.length file)%nat.
Proof.
  unfold load_and_prepare_data, dropna. rewrite length_map.
  induction file as [| raw file IH]; [ reflexivity | ].
  cbn [map filter]. unfold notna_subset at 1. cbn [coerce c_discount c_profit c_sales].
  destruct (isna_float (to_numeric parse_number (raw_discount raw)));
    destruct (isna (raw_profit raw)); destruct (isna (raw_sales raw));
    cbn [negb andb orb List.length]; lia.
Qed.

(** * Further properties of the aggregate *)

(** X4.  The aggregate has exactly one row per discount_range present in
    the prepared table: its index has no duplicate, and a label is in it if
    and only if some row carries it (ranges without a row are absent). *)
Theorem aggregate_one_row_per_range (data : list row)
  (agg : list (string * agg_row)) :
  perform_discount_analysis data = Ok agg ->
  NoDup (map fst agg) /\
  (forall l, In l (map fst agg) <->
             exists r, In r data /\ discount_range r = l).
Proof.
  intros H. rewrite (analysis_index _ _ H).
  split; [ apply group_keys_NoDup | intros l; apply group_keys_In ].
Qed.

Lemma aggregate_one_row_per_range_witness :
  exists agg,
    perform_discount_analysis sample_data = Ok agg /\
    NoDup (map fst agg) /\
    ~ In "20-30%"%string (map fst agg).
Proof.
  destruct sample_analysis as (agg & _ & E & _).
  destruct (aggregate_one_row_per_range sample_data agg E) as [Hnodup Hiff].
  exists agg. split; [ exact E | ]. split; [ exact Hnodup | ].
  intros Hin. apply Hiff in Hin. destruct Hin as (r & Hr & Hl).
  vm_compute in Hr.
  repeat (destruct Hr as [<- | Hr]; [ discriminate Hl | ]). exact Hr.
Defined.

(** X5.  The aggregate of a prepared upload has at most six rows: the five
    ranges and the placeholder. *)
Theorem aggregate_at_most_six_rows
  (parse_number : string -> option Q) (file : list raw_row)
  (agg : list (string * agg_row)) :
  perform_discount_analysis (load_and_prepare_data parse_number file) = Ok agg ->
  (List.length agg <= 6)%nat.
Proof.
  intros H. rewrite <- (length_map fst agg).
  change 6%nat with (List.length (labels ++ ["nan"%string])).
  apply NoDup_incl_length.
  - rewrite (analysis_index _ _ H). apply group_keys_NoDup.
  - intros l Hl. rewrite (analysis_index _ _ H) in Hl.
    apply group_keys_In in Hl. destruct Hl as (r & Hr & <-).
    exact (load_known_label _ _ _ Hr).
Qed.

Lemma aggregate_at_most_six_rows_witness :
  exists agg,
    perform_discount_analysis (load_and_prepare_data reads_nothing sample_table)
    = Ok agg /\ (List.length agg <= 6)%nat.
Proof.
  destruct sample_analysis as (agg & _ & E & _).
  exists agg. split; [ exact E | ].
  exact (aggregate_at_most_six_rows reads_nothing sample_table agg E).
Defined.

(** ** When the analysis fails *)

Lemma sum_column_Raise (c : list cell) (e : exn) :
  sum_column c = Raise e -> e = TypeError.
Proof.
  induction c as [| [q | t |] c IH]; cbn; intros H.
  - discriminate H.
  - destruct (sum_column c); cbn in H; [ discriminate H | auto ].
  - now injection H.
  - auto.
Qed.

Lemma agg_group_Raise (g : string * list row) (e : exn) :
  agg_group g = Raise e -> e = TypeError.
Proof.
  unfold agg_group. intros H.
  destruct (sum_column (map sales (snd g))) eqn:Es; cbn in H;
    [ | injection H as <-; exact (sum_column_Raise _ _ Es) ].
  destruct (sum_column (map profit (snd g))) eqn:Ep; cbn in H;
    [ discriminate H | injection H as <-; exact (sum_column_Raise _ _ Ep) ].
Qed.

Lemma mapM_Raise {A B : Type} (f : A -> result B) (l : list A) (e : exn) :
  mapM f l = Raise e -> exists a, In a l /\ f a = Raise e.
Proof.
  induction l as [| a l IH]; cbn; intros H; [ discriminate H | ].
  destruct (f a) eqn:Ea; cbn in H.
  - destruct (mapM f l); cbn in H; [ discriminate H | ].
    destruct (IH H) as (a' & Hin & Ha'). exists a'. auto.
  - injection H as <-. exists a. auto.
Qed.

Lemma text_or_numeric (data : list row) :
  numeric_columns data \/
  Exists (fun r => is_text (sales r) = true \/ is_text (profit r) = true) data.
Proof.
  unfold numeric_columns.
  induction data as [| r data [IH | IH]].
  - left. constructor.
  - destruct (is_text (sales r)) eqn:Es; [ right; left; auto | ].
    destruct (is_text (profit r)) eqn:Ep; [ right; left; auto | ].
    left. constructor; auto.
  - right. now right.
Qed.

(** X6.  The analysis fails exactly when a row of the prepared table has a
    text in sales or in profit, and the exception is then TypeError; a
    missing or non-numeric profit_margin never makes it fail. *)
Theorem analysis_fails_iff_text (data : list row) :
  ((exists e, perform_discount_analysis data = Raise e) <->
   Exists (fun r => is_text (sales r) = true \/ is_text (profit r) = true)
     data) /\
  (forall e, perform_discount_analysis data = Raise e -> e = TypeError).
Proof.
  split; [ split | ].
  - intros [e He]. destruct (text_or_numeric data) as [Hnum | Htext];
      [ | exact Htext ].
    destruct (analysis_total data Hnum) as [agg Hagg]. congruence.
  - intros Htext.
    destruct (perform_discount_analysis data) as [agg | e] eqn:E; [ | eauto ].
    apply analysis_numeric in E. unfold numeric_columns in E.
    rewrite Forall_forall in E. apply Exists_exists in Htext.
    destruct Htext as (r & Hr & Ht). destruct (E r Hr) as [Hs Hp].
    destruct Ht; congruence.
  - intros e He. unfold perform_discount_analysis in He.
    apply mapM_Raise in He. destruct He as (g & _ & Hg).
    exact (agg_group_Raise _ _ Hg).
Qed.

Lemma analysis_fails_iff_text_witness :
  perform_discount_analysis
    (load_and_prepare_data reads_nothing (text_profit_row :: sample_table))
  = Raise TypeError.
Proof.
  destruct (analysis_fails_iff_text
              (load_and_prepare_data reads_nothing
                 (text_profit_row :: sample_table))) as [[_ Hfail] Hexn].
  destruct Hfail as [e He].
  - left. right. reflexivity.
  - rewrite He. f_equal. exact (Hexn e He).
Defined.

(** X7.  [main] runs the analysis before it looks at the selected view: when
    a row with a numeric discount and a profit and a sales value has a text
    in profit or in sales, every view raises TypeError, the Overview
    included. *)
Theorem text_row_fails_every_view
  (parse_number : string -> option Q) (file : list raw_row)
  (raw : raw_row) (d : Q) (selected_option : view) :
  In raw file ->
  to_numeric parse_number (raw_discount raw) = Some d ->
  raw_profit raw <> NaN -> raw_sales raw <> NaN ->
  is_text (raw_profit raw) = true \/ is_text (raw_sales raw) = true ->
  main parse_number (Some file) selected_option = Raise TypeError.
Proof.
  intros Hin Hd Hp Hs Htext.
  destruct (analysis_fails_iff_text (load_and_prepare_data parse_number file))
    as [[_ Hfail] Hexn].
  destruct Hfail as [e He].
  - apply Exists_exists. exists (prepared parse_number raw d). split.
    + apply in_split in Hin. destruct Hin as (f & g & ->).
      rewrite load_app, load_cons, (load_kept _ raw d) by assumption.
      apply in_or_app. right. now left.
    + cbn. tauto.
  - unfold main. rewrite He. cbn. f_equal. exact (Hexn e He).
Qed.

Lemma text_row_fails_every_view_witness :
  main reads_nothing (Some (sample_table ++ [text_profit_row])) Overview
  = Raise TypeError.
Proof.
  apply (text_row_fails_every_view reads_nothing _ text_profit_row 0.05).
  - apply in_or_app. right. left. reflexivity.
  - reflexivity.
  - discriminate.
  - discriminate.
  - left. reflexivity.
Defined.

(** ** The groups *)

Lemma group_of_cons_other (r : row) (data : list row) (ks : list string) :
  ~ In (discount_range r) ks ->
  map (group_of (r :: data)) ks = map (group_of data) ks.
Proof.
  intros Hnotin. apply map_ext_in. intros k Hk.
  unfold group_of. cbn [filter].
  destruct (String.eqb_spec (discount_range r) k) as [E | _];
    [ subst k; contradiction | reflexivity ].
Qed.

Lemma groups_concat_cons (r : row) (data : list row) (ks : list string) :
  NoDup ks -> In (discount_range r) ks ->
  Permutation (List.concat (map (group_of (r :: data)) ks))
    (r :: List.concat (map (group_of data) ks)).
Proof.
  induction 1 as [| k ks Hnotin Hnodup IH]; [ intros [] | ].
  intros Hin. cbn [map List.concat].
  destruct (string_dec k (discount_range r)) as [-> | Hne].
  - rewrite (group_of_cons_other r data ks Hnotin).
    unfold group_of at 1. cbn [filter]. rewrite String.eqb_refl. reflexivity.
  - destruct Hin as [E | Hin]; [ contradiction | ].
    unfold group_of at 1. cbn [filter].
    destruct (String.eqb_spec (discount_range r) k) as [E | _];
      [ now symmetry in E | ].
    fold (group_of data k). rewrite (IH Hin). apply Permutation_sym.
    apply Permutation_middle.
Qed.

Lemma groups_concat_perm (data : list row) (ks : list string) :
  NoDup ks ->
  (forall r, In r data -> In (discount_range r) ks) ->
  Permutation (List.concat (map (group_of data) ks)) data.
Proof.
  intros Hnodup. induction data as [| r data IH]; intros Hkeys.
  - clear Hkeys Hnodup. induction ks as [| k ks IHk]; cbn; auto.
  - rewrite groups_concat_cons by (auto; apply Hkeys; now left).
    constructor. apply IH. intros r' Hr'. apply Hkeys. now right.
Qed.

(** X10.  [groupby] splits the prepared table: the groups put end to end
    hold the rows of the table, each once; no group is empty, and all rows
    of a group carry the key of the group. *)
Theorem groups_split_the_table (data : list row) :
  Permutation (List.concat (map snd (groupby data))) data /\
  Forall (fun g => snd g <> [] /\
                   Forall (fun r => discount_range r = fst g) (snd g))
    (groupby data).
Proof.
  unfold groupby. rewrite map_map. cbn [snd]. split.
  - apply groups_concat_perm; [ apply group_keys_NoDup | ].
    intros r Hr. apply group_keys_In. eauto.
  - apply Forall_map, Forall_forall. intros k Hk. cbn [fst snd].
    apply group_keys_In in Hk. destruct Hk as (r & Hr & Hl). split.
    + intros Hnil. assert (Hin : In r (group_of data k))
        by (apply group_of_In; auto).
      rewrite Hnil in Hin. destruct Hin.
    + apply Forall_forall. intros r' Hr'. now apply group_of_In in Hr'.
Qed.


(** ** The recommendation *)

Lemma first_notna_None (s : list (string * float)) :
  first_notna s = None -> forall l x, In (l, x) s -> x = None.
Proof.
  induction s as [| [l0 [v |]] s IH]; cbn; intros H l x Hin.
  - destruct Hin.
  - discriminate H.
  - destruct Hin as [E | Hin]; [ now injection E | eauto ].
Qed.

Lemma column_In (agg : list (string * agg_row)) (l : string) (a : agg_row) :
  In (l, a) agg -> In (l, agg_profit_margin a) (column_profit_margin agg).
Proof.
  intros H. unfold column_profit_margin. apply in_map_iff.
  exists (l, a). auto.
Qed.

Lemma idxmax_notna (agg : list (string * agg_row)) (l : string)
  (a : agg_row) (m : Q) :
  In (l, a) agg -> agg_profit_margin a = Some m ->
  exists l0, idxmax (column_profit_margin agg) = Ok (Some l0).
Proof.
  intros Hin Hm. apply column_In in Hin. rewrite Hm in Hin.
  unfold idxmax.
  destruct (column_profit_margin agg) as [| x s] eqn:Es; [ destruct Hin | ].
  destruct (first_notna (x :: s)) as [l0 |] eqn:E; [ eauto | ].
  pose proof (first_notna_None _ E _ _ Hin). discriminate.
Qed.

(** X11.  A group whose mean margin is a number strictly above the mean
    margin of every other group is the recommended range, whatever its
    label, the placeholder "nan" included. *)
Theorem largest_margin_is_recommended (agg : list (string * agg_row))
  (l : string) (a : agg_row) (m : Q) :
  In (l, a) agg ->
  agg_profit_margin a = Some m ->
  (forall l' a' m', In (l', a') agg -> l' <> l ->
     agg_profit_margin a' = Some m' -> m' < m) ->
  idxmax (column_profit_margin agg) = Ok (Some l).
Proof.
  intros Hin Hm Hstrict.
  destruct (idxmax_notna agg l a m Hin Hm) as [l0 Hl0].
  rewrite Hl0. do 2 f_equal.
  destruct (string_dec l0 l) as [E | Hne]; [ exact E | exfalso ].
  destruct (idxmax_split _ _ Hl0)
    as (a0 & m0 & pre & post & Hsplit & Hm0 & Hpre & Hpost).
  assert (Hlt : m0 < m).
  { apply (Hstrict l0 a0); [ rewrite Hsplit; apply in_elt | | ]; assumption. }
  rewrite Hsplit in Hin. apply in_app_or in Hin.
  destruct Hin as [Hin | [E | Hin]].
  - pose proof (Hpre _ _ _ Hin Hm). lra.
  - injection E as E _. contradiction.
  - pose proof (Hpost _ _ _ Hin Hm). lra.
Qed.

Lemma nan_label_group :
  exists agg a m,
    perform_discount_analysis
      (load_and_prepare_data reads_nothing
         [mk_raw (Num 0) (Num 5) (Num 10) (Num 0.5);
          mk_raw (Num 0.05) (Num 5) (Num 10) (Num 0.1)]) = Ok agg /\
    In ("nan"%string, a) agg /\ agg_profit_margin a = Some m /\
    forall l' a' m', In (l', a') agg -> l' <> "nan"%string ->
      agg_profit_margin a' = Some m' -> m' < m.
Proof.
  do 3 eexists. split; [ vm_compute; reflexivity | ].
  split; [ right; left; reflexivity | ]. split; [ reflexivity | ].
  intros l' a' m' [E | [E | []]] Hne Hm'.
  - injection E as <- <-. cbn in Hm'. injection Hm' as <-. reflexivity.
  - injection E as <- _. now destruct Hne.
Qed.

Lemma largest_margin_is_recommended_witness :
  exists agg,
    perform_discount_analysis
      (load_and_prepare_data reads_nothing
         [mk_raw (Num 0) (Num 5) (Num 10) (Num 0.5);
          mk_raw (Num 0.05) (Num 5) (Num 10) (Num 0.1)]) = Ok agg /\
    idxmax (column_profit_margin agg) = Ok (Some "nan"%string).
Proof.
  destruct nan_label_group as (agg & a & m & E & Hin & Hm & Hstrict).
  exists agg. split; [ exact E | ].
  exact (largest_margin_is_recommended agg _ a m Hin Hm Hstrict).
Defined.





(** ** The order of the ranges *)

(** X13.  Between two discounts in (0, 1], the larger one never gets an
    earlier range. *)
Theorem larger_discount_later_range (d1 d2 : Q) :
  0 < d1 -> d1 <= d2 -> d2 <= 1 ->
  (interval_rank (astype_str (cut (Some d1) bins labels))
   <= interval_rank (astype_str (cut (Some d2) bins labels)))%nat.
Proof.
  intros H0 H12 H1. unfold cut, bins, labels, searchsorted.
  repeat match goal with
         | |- context [Qle_bool ?d ?b] => split_edge d b
         end;
    cbn; try lia; exfalso; lra.
Qed.

Lemma larger_discount_later_range_witness :
  (interval_rank (astype_str (cut (Some 0.1%Q) bins labels))
   <= interval_rank (astype_str (cut (Some 0.25%Q) bins labels)))%nat.
Proof.
  apply larger_discount_later_range; unfold Qlt, Qle; cbn; lia.
Defined.

(** ** The order of the uploaded rows *)

Lemma Permutation_filter {A : Type} (keep : A -> bool) (rows rows' : list A) :
  Permutation rows rows' ->
  Permutation (filter keep rows) (filter keep rows').
Proof.
  intros Hperm. induction Hperm; cbn.
  - apply perm_nil.
  - destruct (keep x); auto.
  - destruct (keep x), (keep y); auto using perm_swap.
  - eapply perm_trans; eassumption.
Qed.

(** A duplicate-free list of labels of the program has one way only of
    being in interval order. *)
Lemma interval_order_unique (l1 : list string) :
  forall l2,
    StronglySorted rank_le l1 -> StronglySorted rank_le l2 ->
    NoDup l1 -> NoDup l2 ->
    Forall known_label l1 -> Forall known_label l2 ->
    (forall x, In x l1 <-> In x l2) ->
    l1 = l2.
Proof.
  induction l1 as [| x t1 IH]; intros [| y t2] S1 S2 N1 N2 K1 K2 Hsame.
  - reflexivity.
  - destruct (proj2 (Hsame y)). now left.
  - destruct (proj1 (Hsame x)). now left.
  - apply StronglySorted_inv in S1, S2.
    destruct S1 as [S1 A1], S2 as [S2 A2].
    inversion N1 as [| ? ? Hx N1']; inversion N2 as [| ? ? Hy N2']; subst.
    inversion K1 as [| ? ? Kx K1']; inversion K2 as [| ? ? Ky K2']; subst.
    rewrite Forall_forall in A1, A2.
    assert (Exy : x = y).
    { destruct (proj1 (Hsame x) (or_introl eq_refl)) as [E | Hxin]; [ auto | ].
      destruct (proj2 (Hsame y) (or_introl eq_refl)) as [E | Hyin]; [ auto | ].
      apply interval_rank_inj; try assumption.
      pose proof (A1 _ Hyin). pose proof (A2 _ Hxin).
      unfold rank_le in *. lia. }
    subst y. f_equal. apply IH; try assumption.
    intros z. split; intros Hz.
    + destruct (proj1 (Hsame z) (or_intror Hz)) as [E | Hin]; [ | exact Hin ].
      subst z. contradiction.
    + destruct (proj2 (Hsame z) (or_intror Hz)) as [E | Hin]; [ | exact Hin ].
      subst z. contradiction.
Qed.

Lemma group_keys_perm (data data' : list row) :
  Forall (fun r => known_label (discount_range r)) data ->
  Permutation data data' ->
  group_keys data = group_keys data'.
Proof.
  intros Hknown Hperm.
  assert (Hknown' : Forall (fun r => known_label (discount_range r)) data')
    by (apply (Permutation_Forall Hperm); exact Hknown).
  assert (Hk : forall d, Forall (fun r => known_label (discount_range r)) d ->
                         Forall known_label (group_keys d)).
  { intros d Hd. apply Forall_forall. intros k Hin.
    apply group_keys_In in Hin. destruct Hin as (r & Hr & <-).
    rewrite Forall_forall in Hd. now apply Hd. }
  apply interval_order_unique;
    auto using group_keys_rank, group_keys_NoDup.
  intros k. rewrite !group_keys_In. split; intros (r & Hr & Hl); exists r;
    (split; [ | exact Hl ]).
  - exact (Permutation_in _ Hperm Hr).
  - exact (Permutation_in _ (Permutation_sym Hperm) Hr).
Qed.

(** * Machine arithmetic *)









(** ** Rounding to nearest, ties to even *)















(** ** Rounding to float64 *)

Lemma round64_comp (x y : Q) : x == y -> round64 x = round64 y.
Proof.
  intros E. unfold round64.
  rewrite (Qcompare_comp _ _ E _ _ (Qeq_refl 0)).
  rewrite (Qred_complete _ _ E).
  assert (E' : - x == - y) by (rewrite E; reflexivity).
  now rewrite (Qred_complete _ _ E').
Qed.



















(** ** Sums that do not round *)

Lemma representable_comp (x y : Q) : x == y -> representable x -> representable y.
Proof.
  intros E (v & H & Ev). exists v.
  rewrite <- (round64_comp _ _ E). split; [ exact H | lra ].
Qed.

Lemma representable_0 : representable 0.
Proof. exists 0. split; reflexivity. Qed.

Lemma sums_exact_comp (values : list Q) (a b : Q) :
  a == b -> sums_exact a values -> sums_exact b values.
Proof.
  revert a b. induction values as [| v values IH]; cbn; intros a b E H; [ exact I | ].
  destruct H as [H1 H2]. split.
  - apply (representable_comp (a + v)); [ lra | exact H1 ].
  - apply (IH (a + v)); [ lra | exact H2 ].
Qed.

Lemma f64_add_exact (a b q : Q) :
  a + b == q -> representable q ->
  exists t, f64_add (Finite a) (Finite b) = Finite t /\ t == q.
Proof.
  intros E (v & H & Ev). exists v. cbn.
  now rewrite (round64_comp _ _ E).
Qed.

Lemma f64_sub_exact (a b q : Q) :
  a - b == q -> representable q ->
  exists t, f64_sub (Finite a) (Finite b) = Finite t /\ t == q.
Proof.
  intros E H. unfold f64_sub. cbn [f64_neg].
  apply f64_add_exact; [ lra | exact H ].
Qed.

(** One turn of the loop when nothing rounds. *)
Lemma kahan_step_exact (s c v acc : Q) (values : list xfloat) :
  s == acc -> c == 0 -> representable v -> representable (acc + v) ->
  exists t c',
    kahan (Finite s) (Finite c) (Finite v :: values)
    = kahan (Finite t) (Finite c') values /\
    t == acc + v /\ c' == 0.
Proof.
  intros Es Ec Hv Hs. cbn [kahan isnan].
  destruct (f64_sub_exact v c v) as (y & -> & Ey); [ lra | exact Hv | ].
  destruct (f64_add_exact s y (acc + v)) as (t & -> & Et); [ lra | exact Hs | ].
  destruct (f64_sub_exact t s v) as (d & -> & Ed); [ lra | exact Hv | ].
  destruct (f64_sub_exact d y 0) as (c' & -> & Ec');
    [ lra | exact representable_0 | ].
  exists t, c'. cbn [isnan]. auto.
Qed.




(** ** int64 sums *)

Lemma wrap64_mod (z : Z) : (wrap64 z mod 2 ^ 64 = z mod 2 ^ 64)%Z.
Proof.
  unfold wrap64.
  rewrite Zminus_mod, Zmod_mod, <- Zminus_mod.
  f_equal. ring.
Qed.

Lemma fold_wrap64_mod (values : list Z) :
  forall acc,
    (fold_left (fun a v => wrap64 (a + v)) values acc mod 2 ^ 64
     = (acc + Zsum values) mod 2 ^ 64)%Z.
Proof.
  induction values as [| v values IH]; intros acc; cbn [fold_left Zsum fold_right].
  - now rewrite Z.add_0_r.
  - rewrite IH. fold (Zsum values).
    rewrite Zplus_mod, wrap64_mod, <- Zplus_mod. f_equal. ring.
Qed.

Lemma in_int64_mod (a b : Z) :
  in_int64 a -> in_int64 b -> (a mod 2 ^ 64 = b mod 2 ^ 64)%Z -> a = b.
Proof.
  unfold in_int64. intros Ha Hb H.
  assert (Ea : ((a + 2 ^ 63) mod 2 ^ 64 = (b + 2 ^ 63) mod 2 ^ 64)%Z).
  { rewrite (Zplus_mod a), (Zplus_mod b), H. reflexivity. }
  rewrite !Z.mod_small in Ea by lia. lia.
Qed.

Lemma wrap64_range (z : Z) : in_int64 (wrap64 z).
Proof.
  unfold in_int64, wrap64.
  pose proof (Z.mod_pos_bound (z + 2 ^ 63) (2 ^ 64) eq_refl). lia.
Qed.

Lemma group_sum_int64_range (values : list Z) : in_int64 (group_sum_int64 values).
Proof.
  unfold group_sum_int64.
  assert (H : forall acc, in_int64 acc ->
                          in_int64 (fold_left (fun a v => wrap64 (a + v)) values acc)).
  { induction values as [| v values IH]; intros acc Hacc; cbn; [ exact Hacc | ].
    apply IH, wrap64_range. }
  apply H. unfold in_int64. lia.
Qed.

Lemma group_sum_int64_spec (values : list Z) :
  (group_sum_int64 values mod 2 ^ 64 = Zsum values mod 2 ^ 64)%Z /\
  (in_int64 (Zsum values) -> group_sum_int64 values = Zsum values).
Proof.
  assert (H : (group_sum_int64 values mod 2 ^ 64 = Zsum values mod 2 ^ 64)%Z).
  { unfold group_sum_int64. now rewrite fold_wrap64_mod. }
  split; [ exact H | intros Hr ].
  apply in_int64_mod; [ apply group_sum_int64_range | exact Hr | exact H ].
Qed.

(** ** The machine sum of a column *)

Lemma int64_values_Zsum (c : list cell) (vs : list Z) :
  int64_values c = Ok vs -> Zsum vs = Zsum (map Qfloor (map number_of c)).
Proof.
  unfold Zsum.
  revert vs. induction c as [| [q | t |] c IH]; cbn; intros vs H.
  - now injection H as <-.
  - destruct (int64_values c) as [vs' | e]; cbn in H; [ | discriminate H ].
    injection H as <-. cbn. f_equal. exact (IH vs' eq_refl).
  - discriminate H.
  - exact (IH vs H).
Qed.

Lemma float64_values_kahan (c : list cell) :
  forall vs s k acc,
    float64_values c = Ok vs ->
    Forall representable (map number_of c) ->
    s == acc -> k == 0 ->
    sums_exact acc (map number_of c) ->
    exists t, kahan (Finite s) (Finite k) vs = Finite t /\
              t == acc + Qsum (map number_of c).
Proof.
  induction c as [| [q | t |] c IH]; cbn [float64_values map number_of];
    intros vs s k acc H Hrep Es Ek Hsum.
  - injection H as <-. exists s. split; [ reflexivity | cbn; lra ].
  - destruct (float64_values c) as [vs' | e]; cbn in H; [ | discriminate H ].
    injection H as <-.
    inversion Hrep as [| ? ? Hq Hrep']; subst. destruct Hsum as [H1 H2].
    destruct Hq as (q' & Hq' & Eq'). rewrite Hq'.
    destruct (kahan_step_exact s k q' acc vs' Es Ek) as (t & k' & Hk & Et & Ek').
    { apply (representable_comp q); [ lra | ]. exists q'. auto. }
    { apply (representable_comp (acc + q)); [ lra | exact H1 ]. }
    rewrite Hk.
    destruct (IH vs' t k' (acc + q) eq_refl Hrep') as (r & Hr & Er);
      [ lra | exact Ek' | exact H2 | ].
    exists r. split; [ exact Hr | cbn; lra ].
  - discriminate H.
  - destruct (float64_values c) as [vs' | e]; cbn in H; [ | discriminate H ].
    injection H as <-.
    inversion Hrep as [| ? ? _ Hrep']; subst. destruct Hsum as [_ H2].
    cbn [kahan isnan].
    destruct (IH vs' s k acc eq_refl Hrep' Es Ek) as (r & Hr & Er).
    { apply (sums_exact_comp _ (acc + 0)); [ lra | exact H2 ]. }
    exists r. split; [ exact Hr | cbn; lra ].
Qed.

Lemma group_sum_spec (d : dtype) (c : list cell) (n : number) :
  group_sum d c = Ok n -> is_group_sum d n (map number_of c).
Proof.
  destruct d; cbn [group_sum is_group_sum]; intros H.
  - intros _. destruct (int64_values c) as [vs |] eqn:E; cbn in H; [ | discriminate H ].
    injection H as <-. exists (group_sum_int64 vs).
    rewrite <- (int64_values_Zsum c vs E).
    split; [ reflexivity | ].
    split; [ apply group_sum_int64_range | apply group_sum_int64_spec ].
  - intros Hrep Hsum.
    destruct (float64_values c) as [vs |] eqn:E; cbn in H; [ | discriminate H ].
    injection H as <-.
    destruct (float64_values_kahan c vs 0 0 0 E Hrep) as (t & Ht & Et);
      [ reflexivity | reflexivity | exact Hsum | ].
    exists t. unfold group_sum_float64. rewrite Ht. split; [ reflexivity | lra ].
Qed.

(** ** The machine aggregate, row by row *)

Lemma load_np_fst (parse_number : string -> option Q) (file : list raw_row) :
  map fst (load_and_prepare_data_np parse_number file)
  = load_and_prepare_data parse_number file.
Proof.
  unfold load_and_prepare_data_np, load_and_prepare_data, dropna.
  induction file as [| raw file IH]; [ reflexivity | ].
  cbn [flat_map map filter]. rewrite map_app, IH. unfold prepare_row_np.
  destruct (notna_subset (coerce parse_number raw)); reflexivity.
Qed.

Lemma group_of_np_fst (data : list (row * xfloat)) (k : string) :
  map fst (group_of_np data k) = rows_with_range k (map fst data).
Proof.
  unfold group_of_np, rows_with_range.
  induction data as [| [r x] data IH]; [ reflexivity | ].
  cbn [filter map fst]. destruct (String.eqb (discount_range r) k); cbn;
    now rewrite IH.
Qed.



Lemma agg_group_np_Ok (dS dP : dtype) (k : string)
  (g : list (row * xfloat)) (la : string * np_agg_row) :
  agg_group_np dS dP (k, g) = Ok la ->
  fst la = k /\
  is_group_sum dS (np_sales (snd la)) (sales_values (map fst g)) /\
  is_group_sum dP (np_profit (snd la)) (profit_values (map fst g)) /\
  np_profit_margin (snd la) = group_mean_float64 (map snd g).
Proof.
  unfold agg_group_np. cbn [fst snd]. intros H.
  destruct (group_sum dS _) as [s | e] eqn:Es; cbn in H; [ | discriminate H ].
  destruct (group_sum dP _) as [p | e] eqn:Ep; cbn in H; [ | discriminate H ].
  injection H as <-. cbn.
  apply group_sum_spec in Es, Ep.
  unfold sales_values, profit_values. rewrite !map_map in *.
  repeat split; assumption.
Qed.

Lemma analysis_np_Ok (dS dP : dtype) (data : list (row * xfloat))
  (agg : list (string * np_agg_row)) :
  perform_discount_analysis_np dS dP data = Ok agg ->
  Forall2 (fun k la => agg_group_np dS dP (k, group_of_np data k) = Ok la)
    (group_keys (map fst data)) agg.
Proof.
  unfold perform_discount_analysis_np. apply mapM_map_Ok.
Qed.


Lemma Qsum_integers (values : list Q) :
  Forall is_integer values ->
  Qsum values == inject_Z (Zsum (map Qfloor values)).
Proof.
  induction 1 as [| v values Hv _ IH]; cbn; [ reflexivity | ].
  rewrite inject_Z_plus, <- IH. unfold is_integer in Hv. lra.
Qed.

Lemma Forall_rows_with_range (P : Q -> Prop) (f : row -> Q)
  (l : string) (data : list row) :
  Forall P (map f data) -> Forall P (map f (rows_with_range l data)).
Proof.
  rewrite !Forall_map, !Forall_forall. intros H r Hr.
  apply H. unfold rows_with_range in Hr. now apply filter_In in Hr.
Qed.

Lemma np_group_sums_keys (h : np_agg_row -> Q) (f : row -> Q) (dS dP : dtype)
  (data : list (row * xfloat)) (agg : list (string * np_agg_row))
  (ks : list string) :
  (forall k la, In k ks ->
                agg_group_np dS dP (k, group_of_np data k) = Ok la ->
                h (snd la) == Qsum (map f (rows_with_range k (map fst data)))) ->
  Forall2 (fun k la => agg_group_np dS dP (k, group_of_np data k) = Ok la)
    ks agg ->
  Qsum (map (fun la => h (snd la)) agg)
  == Qsum (map (fun k => Qsum (map f (rows_with_range k (map fst data)))) ks).
Proof.
  intros Hh H. revert Hh.
  induction H as [| k la ks agg Hk _ IH]; intros Hh; cbn; [ reflexivity | ].
  rewrite IH, (Hh k la (or_introl eq_refl) Hk); [ reflexivity | ].
  intros k' la' Hin. apply Hh. now right.
Qed.

Lemma np_group_sums (h : np_agg_row -> Q) (f : row -> Q) (dS dP : dtype)
  (data : list (row * xfloat)) (agg : list (string * np_agg_row)) :
  (forall k la, In k (group_keys (map fst data)) ->
                agg_group_np dS dP (k, group_of_np data k) = Ok la ->
                h (snd la) == Qsum (map f (rows_with_range k (map fst data)))) ->
  perform_discount_analysis_np dS dP data = Ok agg ->
  Qsum (map (fun la => h (snd la)) agg) == Qsum (map f (map fst data)).
Proof.
  intros Hh Hagg. apply analysis_np_Ok in Hagg.
  rewrite (np_group_sums_keys h f dS dP data agg _ Hh Hagg).
  apply (groups_partition f (map fst data) (group_keys (map fst data))).
  - apply group_keys_NoDup.
  - intros r Hr. apply group_keys_In. eauto.
Qed.

Lemma np_group_sums_mod (h : np_agg_row -> Z) (f : row -> Z) (dS dP : dtype)
  (data : list (row * xfloat)) (agg : list (string * np_agg_row))
  (ks : list string) :
  (forall k la, In k ks ->
                agg_group_np dS dP (k, group_of_np data k) = Ok la ->
                (h (snd la) mod 2 ^ 64
                 = Zsum (map f (rows_with_range k (map fst data))) mod 2 ^ 64)%Z) ->
  Forall2 (fun k la => agg_group_np dS dP (k, group_of_np data k) = Ok la)
    ks agg ->
  (Zsum (map (fun la => h (snd la)) agg) mod 2 ^ 64
   = Zsum (map (fun k => Zsum (map f (rows_with_range k (map fst data)))) ks)
     mod 2 ^ 64)%Z.
Proof.
  intros Hh H. revert Hh.
  induction H as [| k la ks agg Hk _ IH]; intros Hh; [ reflexivity | ].
  cbn [map Zsum fold_right]. fold (Zsum (map (fun la => h (snd la)) agg)).
  fold (Zsum (map (fun k => Zsum (map f (rows_with_range k (map fst data)))) ks)).
  rewrite Zplus_mod, IH, (Hh k la (or_introl eq_refl) Hk), <- Zplus_mod;
    [ reflexivity | ].
  intros k' la' Hin. apply Hh. now right.
Qed.

Lemma Zsum_groups (f : row -> Z) (data : list row) :
  Zsum (map (fun k => Zsum (map f (rows_with_range k data))) (group_keys data))
  = Zsum (map f data).
Proof.
  assert (HQ : forall l : list row,
             Qsum (map (fun r => inject_Z (f r)) l) == inject_Z (Zsum (map f l))).
  { induction l as [| r l IH]; cbn; [ reflexivity | ].
    now rewrite inject_Z_plus, IH. }
  apply inject_Z_injective. rewrite <- HQ.
  rewrite <- (groups_partition (fun r => inject_Z (f r)) data (group_keys data)).
  - induction (group_keys data) as [| k ks IH]; cbn; [ reflexivity | ].
    rewrite inject_Z_plus, IH. fold (Zsum (map f (rows_with_range k data))).
    now rewrite <- HQ.
  - apply group_keys_NoDup.
  - intros r Hr. apply group_keys_In. eauto.
Qed.

Lemma analysis_np_key (dS dP : dtype) (data : list (row * xfloat))
  (agg : list (string * np_agg_row)) (la : string * np_agg_row) :
  perform_discount_analysis_np dS dP data = Ok agg -> In la agg ->
  exists k, In k (group_keys (map fst data)) /\
            agg_group_np dS dP (k, group_of_np data k) = Ok la.
Proof.
  intros H Hin. apply analysis_np_Ok in H.
  induction H as [| k x ks agg Hk _ IH]; [ destruct Hin | ].
  destruct Hin as [-> | Hin].
  - exists k. split; [ now left | exact Hk ].
  - destruct (IH Hin) as (k' & Hk' & Hg). exists k'. split; [ now right | exact Hg ].
Qed.

(** The sums of a column over the groups, against its sum over the table. *)
Lemma column_partition_machine (col : row -> cell) (h : np_agg_row -> number)
  (d dS dP : dtype) (mdata : list (row * xfloat))
  (agg : list (string * np_agg_row)) :
  (forall k la,
      agg_group_np dS dP (k, group_of_np mdata k) = Ok la ->
      is_group_sum d (h (snd la))
        (map (fun r => number_of (col r))
           (rows_with_range k (map fst mdata)))) ->
  perform_discount_analysis_np dS dP mdata = Ok agg ->
  match d with
  | int64 =>
      Forall is_integer (map (fun r => number_of (col r)) (map fst mdata)) ->
      (Zsum (map (fun la => Qfloor (number_value (h (snd la)))) agg)
         mod 2 ^ 64
       = Zsum (map Qfloor (map (fun r => number_of (col r)) (map fst mdata)))
         mod 2 ^ 64)%Z /\
      ((forall l,
           In l (group_keys (map fst mdata)) ->
           in_int64
             (Zsum (map Qfloor
                      (map (fun r => number_of (col r))
                         (rows_with_range l (map fst mdata)))))) ->
       Qsum (map (fun la => number_value (h (snd la))) agg)
       == Qsum (map (fun r => number_of (col r)) (map fst mdata)))
  | float64 =>
      Forall representable
        (map (fun r => number_of (col r)) (map fst mdata)) ->
      (forall l,
          In l (group_keys (map fst mdata)) ->
          sums_exact 0
            (map (fun r => number_of (col r))
               (rows_with_range l (map fst mdata)))) ->
      Forall (fun la => is_finite (h (snd la))) agg /\
      Qsum (map (fun la => number_value (h (snd la))) agg)
      == Qsum (map (fun r => number_of (col r)) (map fst mdata))
  end.
Proof.
  intros Hgroup Hagg.
  destruct d; cbn [is_group_sum] in Hgroup.
  - intros Hint. split.
    + rewrite (np_group_sums_mod
                 (fun a => Qfloor (number_value (h a)))
                 (fun r => Qfloor (number_of (col r)))
                 dS dP mdata agg (group_keys (map fst mdata))).
      * rewrite Zsum_groups.
        now rewrite (map_map (fun r : row => number_of (col r)) Qfloor).
      * intros k la _ Hk.
        destruct (Hgroup k la Hk) as (z & -> & _ & Hmod & _).
        { now apply Forall_rows_with_range. }
        cbn [number_value]. rewrite Qfloor_Z, Hmod.
        now rewrite (map_map (fun r : row => number_of (col r)) Qfloor).
      * now apply analysis_np_Ok.
    + intros Hrange.
      apply (np_group_sums (fun a => number_value (h a))
               (fun r => number_of (col r)) dS dP);
        [ | exact Hagg ].
      intros k la Hin Hk.
      destruct (Hgroup k la Hk) as (z & -> & _ & _ & Hexact).
      { now apply Forall_rows_with_range. }
      cbn [number_value]. rewrite (Hexact (Hrange k Hin)).
      symmetry. apply Qsum_integers. now apply Forall_rows_with_range.
  - intros Hrep Hsum. split.
    + apply Forall_forall. intros la Hin.
      destruct (analysis_np_key _ _ _ _ la Hagg Hin) as (k & Hkin & Hk).
      destruct (Hgroup k la Hk) as (t & -> & _);
        [ | now apply Hsum | exact I ].
      now apply Forall_rows_with_range.
    + apply (np_group_sums (fun a => number_value (h a))
               (fun r => number_of (col r)) dS dP);
        [ | exact Hagg ].
      intros k la Hin Hk.
      destruct (Hgroup k la Hk) as (t & -> & Et);
        [ | now apply Hsum | exact Et ].
      now apply Forall_rows_with_range.
Qed.

(** C4, as the program computes.  The sales entries of the aggregate add up
    to the sum of sales over the prepared table in these cases: for an
    int64 sales column, modulo 2^64, and exactly when the sum of every
    group is an int64; for a float64 sales column, when the values are
    float64 and no addition of the grouped sums rounds.  (An addition that
    rounds can break the equality.) *)
Theorem sales_partition_machine
  (parse_number : string -> option Q) (file : list raw_row)
  (sales_dtype profit_dtype : dtype) (agg : list (string * np_agg_row)) :
  perform_discount_analysis_np sales_dtype profit_dtype
    (load_and_prepare_data_np parse_number file) = Ok agg ->
  match sales_dtype with
  | int64 =>
      Forall is_integer
        (sales_values (load_and_prepare_data parse_number file)) ->
      (Zsum (map (fun la => Qfloor (number_value (np_sales (snd la)))) agg)
         mod 2 ^ 64
       = Zsum (map Qfloor
                 (sales_values (load_and_prepare_data parse_number file)))
         mod 2 ^ 64)%Z /\
      ((forall l,
           In l (group_keys (load_and_prepare_data parse_number file)) ->
           in_int64
             (Zsum (map Qfloor
                      (sales_values
                         (rows_with_range l
                            (load_and_prepare_data parse_number file)))))) ->
       Qsum (map (fun la => number_value (np_sales (snd la))) agg)
       == Qsum (sales_values (load_and_prepare_data parse_number file)))
  | float64 =>
      Forall representable
        (sales_values (load_and_prepare_data parse_number file)) ->
      (forall l,
          In l (group_keys (load_and_prepare_data parse_number file)) ->
          sums_exact 0
            (sales_values
               (rows_with_range l
                  (load_and_prepare_data parse_number file)))) ->
      Forall (fun la => is_finite (np_sales (snd la))) agg /\
      Qsum (map (fun la => number_value (np_sales (snd la))) agg)
      == Qsum (sales_values (load_and_prepare_data parse_number file))
  end.
Proof.
  intros Hagg.
  rewrite <- (load_np_fst parse_number file).
  apply (column_partition_machine sales np_sales sales_dtype
           sales_dtype profit_dtype _ agg); [ | exact Hagg ].
  intros k la Hk. apply agg_group_np_Ok in Hk.
  rewrite group_of_np_fst in Hk. tauto.
Qed.

Ltac exact_float64 :=
  eexists; split; [ vm_compute; reflexivity | vm_compute; reflexivity ].

Lemma exact_table_analysis :
  exists agg,
    perform_discount_analysis_np float64 int64
      (load_and_prepare_data_np reads_nothing exact_table) = Ok agg.
Proof. vm_compute. eexists. reflexivity. Qed.

Lemma sales_partition_machine_witness :
  exists agg,
    perform_discount_analysis_np float64 int64
      (load_and_prepare_data_np reads_nothing exact_table) = Ok agg /\
    Qsum (map (fun la => number_value (np_sales (snd la))) agg)
    == 1000 + 250.5 + 0.25 + 500.
Proof.
  destruct exact_table_analysis as [agg E].
  pose proof (sales_partition_machine reads_nothing exact_table
                float64 int64 agg E) as H.
  cbv beta iota in H.
  destruct H as [_ H].
  - repeat constructor; exact_float64.
  - intros l Hl. vm_compute in Hl.
    destruct Hl as [<- | [<- | []]]; repeat split; exact_float64.
  - exists agg. split; [ exact E | ]. rewrite H. vm_compute. reflexivity.
Defined.

(** C4 as stated fails: three rows of one range with sales 0.1, 0.2 and
    0.3 in a float64 column give the sales entry 0.6 (the float64 next to
    it), which is not the sum of the three sales, whether these are taken
    as written or as the float64 the program holds, and is not the float64
    sum 0.6000000000000001 of the column added from the first row to the
    last. *)
Lemma sales_partition_rounds :
  exists a t x1 x2 x3 s,
    perform_discount_analysis_np float64 int64
      (load_and_prepare_data_np reads_nothing tenths_table)
    = Ok [("0-10%"%string, a)] /\
    np_sales a = F64 (Finite t) /\
    round64 0.1 = Finite x1 /\ round64 0.2 = Finite x2 /\
    round64 0.3 = Finite x3 /\
    f64_add (f64_add (Finite x1) (Finite x2)) (Finite x3) = Finite s /\
    ~ t == 0.1 + 0.2 + 0.3 /\ ~ t == x1 + x2 + x3 /\ ~ t == s /\
    t == 0.59999999999999997779553950749686919152736663818359375 /\
    s == 0.600000000000000088817841970012523233890533447265625.
Proof.
  do 6 eexists.
  split; [ vm_compute; reflexivity | ].
  split; [ reflexivity | ].
  split; [ vm_compute; reflexivity | ].
  split; [ vm_compute; reflexivity | ].
  split; [ vm_compute; reflexivity | ].
  split; [ vm_compute; reflexivity | ].
  split; [ vm_compute; discriminate | ].
  split; [ vm_compute; discriminate | ].
  split; [ vm_compute; discriminate | ].
  split; vm_compute; reflexivity.
Qed.

(** X9.  The same for profit.  The profit entries of the aggregate add up
    to the sum of profit over the prepared table in these cases: for an
    int64 profit column, modulo 2^64, and exactly when the sum of every
    group is an int64; for a float64 profit column, when the values are
    float64 and no addition of the grouped sums rounds. *)
Theorem profit_partition_machine
  (parse_number : string -> option Q) (file : list raw_row)
  (sales_dtype profit_dtype : dtype) (agg : list (string * np_agg_row)) :
  perform_discount_analysis_np sales_dtype profit_dtype
    (load_and_prepare_data_np parse_number file) = Ok agg ->
  match profit_dtype with
  | int64 =>
      Forall is_integer
        (profit_values (load_and_prepare_data parse_number file)) ->
      (Zsum (map (fun la => Qfloor (number_value (np_profit (snd la)))) agg)
         mod 2 ^ 64
       = Zsum (map Qfloor
                 (profit_values (load_and_prepare_data parse_number file)))
         mod 2 ^ 64)%Z /\
      ((forall l,
           In l (group_keys (load_and_prepare_data parse_number file)) ->
           in_int64
             (Zsum (map Qfloor
                      (profit_values
                         (rows_with_range l
                            (load_and_prepare_data parse_number file)))))) ->
       Qsum (map (fun la => number_value (np_profit (snd la))) agg)
       == Qsum (profit_values (load_and_prepare_data parse_number file)))
  | float64 =>
      Forall representable
        (profit_values (load_and_prepare_data parse_number file)) ->
      (forall l,
          In l (group_keys (load_and_prepare_data parse_number file)) ->
          sums_exact 0
            (profit_values
               (rows_with_range l
                  (load_and_prepare_data parse_number file)))) ->
      Forall (fun la => is_finite (np_profit (snd la))) agg /\
      Qsum (map (fun la => number_value (np_profit (snd la))) agg)
      == Qsum (profit_values (load_and_prepare_data parse_number file))
  end.
Proof.
  intros Hagg.
  rewrite <- (load_np_fst parse_number file).
  apply (column_partition_machine profit np_profit profit_dtype
           sales_dtype profit_dtype _ agg); [ | exact Hagg ].
  intros k la Hk. apply agg_group_np_Ok in Hk.
  rewrite group_of_np_fst in Hk. tauto.
Qed.

Lemma profit_partition_machine_witness :
  exists agg,
    perform_discount_analysis_np float64 int64
      (load_and_prepare_data_np reads_nothing exact_table) = Ok agg /\
    Qsum (map (fun la => number_value (np_profit (snd la))) agg)
    == 100 + 30 + 10 + 50.
Proof.
  destruct exact_table_analysis as [agg E].
  pose proof (profit_partition_machine reads_nothing exact_table
                float64 int64 agg E) as H.
  cbv beta iota in H.
  destruct H as [_ H].
  - repeat constructor; vm_compute; reflexivity.
  - exists agg. split; [ exact E | ]. rewrite H.
    + vm_compute. reflexivity.
    + intros l Hl. vm_compute in Hl.
      destruct Hl as [<- | [<- | []]]; vm_compute;
        (split; [ discriminate | reflexivity ]).
Defined.

(** ** The machine mean of the margins *)















(** ** The mean between the least and the greatest margin *)









(** ** The order of the rows of the upload *)

Lemma load_np_perm (parse_number : string -> option Q)
  (file file' : list raw_row) :
  Permutation file file' ->
  Permutation (load_and_prepare_data_np parse_number file)
    (load_and_prepare_data_np parse_number file').
Proof. apply Permutation_flat_map. Qed.

Lemma Zsum_perm (l l' : list Z) : Permutation l l' -> Zsum l = Zsum l'.
Proof.
  unfold Zsum.
  induction 1 as [| x l l' _ IH | x y l | l l' l'' _ IH1 _ IH2]; cbn; lia.
Qed.

(** Wrap-around addition is addition modulo [2^64]: an int64 sum does not
    depend on the order of its terms. *)
Lemma group_sum_int64_perm (vs vs' : list Z) :
  Permutation vs vs' -> group_sum_int64 vs = group_sum_int64 vs'.
Proof.
  intros H. apply in_int64_mod; try apply group_sum_int64_range.
  destruct (group_sum_int64_spec vs) as [-> _].
  destruct (group_sum_int64_spec vs') as [-> _].
  now rewrite (Zsum_perm _ _ H).
Qed.

Lemma int64_values_perm (c c' : list cell) :
  Permutation c c' ->
  forall vs, int64_values c = Ok vs ->
             exists vs', int64_values c' = Ok vs' /\ Permutation vs vs'.
Proof.
  induction 1 as [| x c c' _ IH | x y c | c c' c'' _ IH1 _ IH2]; intros vs H.
  - exists vs. split; [ exact H | reflexivity ].
  - destruct x as [q | t |]; cbn in H |- *.
    + destruct (int64_values c) as [ws | e]; cbn in H; [ | discriminate H ].
      injection H as <-. destruct (IH ws eq_refl) as (ws' & -> & Hp).
      exists (Qfloor q :: ws'). split; [ reflexivity | now constructor ].
    + discriminate H.
    + exact (IH vs H).
  - destruct x as [q | t |], y as [p | u |]; cbn in H |- *;
      try discriminate H;
      destruct (int64_values c) as [ws | e]; cbn in H |- *;
      try discriminate H; injection H as <-;
      eexists; (split; [ reflexivity | ]); try reflexivity.
    apply perm_swap.
  - destruct (IH1 vs H) as (ws & Hws & Hp).
    destruct (IH2 ws Hws) as (ws' & Hws' & Hp').
    exists ws'. split; [ exact Hws' | now transitivity ws ].
Qed.

Lemma float64_values_perm (c c' : list cell) :
  Permutation c c' ->
  forall vs, float64_values c = Ok vs -> exists vs', float64_values c' = Ok vs'.
Proof.
  induction 1 as [| x c c' _ IH | x y c | c c' c'' _ IH1 _ IH2]; intros vs H.
  - now exists vs.
  - destruct x as [q | t |]; cbn in H |- *; try discriminate H;
      destruct (float64_values c) as [ws | e]; cbn in H; try discriminate H;
      destruct (IH ws eq_refl) as (ws' & ->); eexists; reflexivity.
  - destruct x as [q | t |], y as [p | u |]; cbn in H |- *;
      try discriminate H;
      destruct (float64_values c) as [ws | e]; cbn in H |- *;
      try discriminate H; eexists; reflexivity.
  - destruct (IH1 vs H) as (ws & Hws). exact (IH2 ws Hws).
Qed.

Lemma group_sum_perm (d : dtype) (c c' : list cell) (n : number) :
  Permutation c c' -> group_sum d c = Ok n ->
  exists n', group_sum d c' = Ok n' /\ (d = int64 -> n' = n).
Proof.
  intros Hperm H. destruct d; cbn [group_sum] in H |- *.
  - destruct (int64_values c) as [vs | e] eqn:E; cbn in H; [ | discriminate H ].
    injection H as <-.
    destruct (int64_values_perm _ _ Hperm vs E) as (vs' & -> & Hp).
    eexists. split; [ reflexivity | intros _ ]. f_equal.
    symmetry. now apply group_sum_int64_perm.
  - destruct (float64_values c) as [vs | e] eqn:E; cbn in H; [ | discriminate H ].
    destruct (float64_values_perm _ _ Hperm vs E) as (vs' & ->).
    eexists. split; [ reflexivity | discriminate ].
Qed.

(** Two aggregate rows with the same label and the same int64 sums. *)
Lemma agg_group_np_perm (dS dP : dtype) (k : string)
  (g g' : list (row * xfloat)) (la : string * np_agg_row) :
  Permutation g g' ->
  agg_group_np dS dP (k, g) = Ok la ->
  exists la', agg_group_np dS dP (k, g') = Ok la' /\
              same_label_and_int64_sums dS dP la la'.
Proof.
  unfold agg_group_np, same_label_and_int64_sums. cbn [fst snd]. intros Hperm H.
  destruct (group_sum dS _) as [s | e] eqn:Es; cbn in H; [ | discriminate H ].
  destruct (group_sum dP _) as [p | e] eqn:Ep; cbn in H; [ | discriminate H ].
  injection H as <-.
  destruct (group_sum_perm dS _ (map (fun rx => sales (fst rx)) g') s
              (Permutation_map _ Hperm) Es) as (s' & -> & Hs).
  destruct (group_sum_perm dP _ (map (fun rx => profit (fst rx)) g') p
              (Permutation_map _ Hperm) Ep) as (p' & -> & Hp).
  eexists. split; [ reflexivity | ]. cbn. auto.
Qed.

Lemma mapM_related {A B C : Type} (f : B -> result C) (g g' : A -> B)
  (R : C -> C -> Prop) (l : list A) :
  (forall a c, In a l -> f (g a) = Ok c ->
               exists c', f (g' a) = Ok c' /\ R c c') ->
  forall cs, mapM f (map g l) = Ok cs ->
             exists cs', mapM f (map g' l) = Ok cs' /\ Forall2 R cs cs'.
Proof.
  induction l as [| a l IH]; cbn; intros Hf cs H.
  - injection H as <-. exists []. split; [ reflexivity | constructor ].
  - destruct (f (g a)) as [c | e] eqn:Ea; cbn in H; [ | discriminate H ].
    destruct (mapM f (map g l)) as [cs0 | e] eqn:El; cbn in H;
      [ | discriminate H ].
    injection H as <-.
    destruct (Hf a c (or_introl eq_refl) Ea) as (c' & -> & Hc).
    destruct (IH (fun a0 c0 Hin => Hf a0 c0 (or_intror Hin)) cs0 eq_refl)
      as (cs' & -> & Hcs).
    exists (c' :: cs'). split; [ reflexivity | now constructor ].
Qed.

(** X14.  Two uploads with the same rows in another order give aggregates
    with the same index in the same order and, in each row, the same sum
    of every column that is int64 (wrap-around included).  Nothing is
    said of a float64 sum or of the mean, which depend on the order. *)
Theorem aggregate_index_ignores_row_order
  (parse_number : string -> option Q) (file file' : list raw_row)
  (sales_dtype profit_dtype : dtype) (agg : list (string * np_agg_row)) :
  Permutation file file' ->
  perform_discount_analysis_np sales_dtype profit_dtype
    (load_and_prepare_data_np parse_number file) = Ok agg ->
  exists agg',
    perform_discount_analysis_np sales_dtype profit_dtype
      (load_and_prepare_data_np parse_number file') = Ok agg' /\
    map fst agg' = map fst agg /\
    Forall2 (same_label_and_int64_sums sales_dtype profit_dtype) agg agg'.
Proof.
  intros Hperm Hagg.
  pose proof (load_np_perm parse_number _ _ Hperm) as Hdata.
  set (data := load_and_prepare_data_np parse_number file) in *.
  set (data' := load_and_prepare_data_np parse_number file') in *.
  assert (Hkeys : group_keys (map fst data') = group_keys (map fst data)).
  { symmetry. apply group_keys_perm; [ | now apply Permutation_map ].
    apply Forall_forall. intros r Hr. unfold data in Hr.
    rewrite load_np_fst in Hr. exact (load_known_label _ _ _ Hr). }
  unfold perform_discount_analysis_np in Hagg |- *. rewrite Hkeys.
  destruct (mapM_related (agg_group_np sales_dtype profit_dtype)
              (fun k => (k, group_of_np data k))
              (fun k => (k, group_of_np data' k))
              (same_label_and_int64_sums sales_dtype profit_dtype)
              (group_keys (map fst data))) with (cs := agg)
    as (agg' & Hagg' & Hall).
  - intros k la _ Hk.
    apply (agg_group_np_perm _ _ k (group_of_np data k)); [ | exact Hk ].
    apply Permutation_filter. exact Hdata.
  - exact Hagg.
  - exists agg'. split; [ exact Hagg' | ]. split; [ | exact Hall ].
    clear - Hall. induction Hall as [| la la' agg agg' [E _] _ IH];
      [ reflexivity | ]. cbn. now rewrite E, IH.
Qed.

Lemma aggregate_index_ignores_row_order_witness :
  exists agg agg',
    perform_discount_analysis_np float64 int64
      (load_and_prepare_data_np reads_nothing exact_table) = Ok agg /\
    perform_discount_analysis_np float64 int64
      (load_and_prepare_data_np reads_nothing (rev exact_table)) = Ok agg' /\
    map fst agg' = map fst agg /\
    Forall2 (same_label_and_int64_sums float64 int64) agg agg'.
Proof.
  destruct exact_table_analysis as [agg E].
  destruct (aggregate_index_ignores_row_order reads_nothing exact_table
              (rev exact_table) float64 int64 agg (Permutation_rev _) E)
    as (agg' & E' & Hidx & Hall).
  exists agg, agg'. repeat split; assumption.
Defined.


(** X15.  A float64 sum depends on the order of the rows: with the sales
    1, 1e100, 1 and -1e100 in one range, the sales entry is 0 for this
    order of the rows and 2 when the two large values come first. *)
Theorem float64_sum_depends_on_row_order :
  exists a a',
    Permutation cancelling_table cancelling_table_reordered /\
    perform_discount_analysis_np float64 int64
      (load_and_prepare_data_np reads_nothing cancelling_table)
    = Ok [("0-10%"%string, a)] /\
    perform_discount_analysis_np float64 int64
      (load_and_prepare_data_np reads_nothing cancelling_table_reordered)
    = Ok [("0-10%"%string, a')] /\
    np_sales a = F64 (Finite 0) /\
    np_sales a' = F64 (Finite 2).
Proof.
  do 2 eexists. split.
  - unfold cancelling_table, cancelling_table_reordered.
    eapply perm_trans; [ apply perm_swap | ].
    apply perm_skip. symmetry.
    apply (Permutation_cons_append [_; _]).
  - split; [ vm_compute; reflexivity | ].
    split; [ vm_compute; reflexivity | ].
    split; reflexivity.
Qed.
